(** * ControlNet interior-design pipeline: prompt generation and pipeline core

    The repository holds one custom component (prompt generation, written as
    a lightweight component inside [src/pipeline.ipynb] and, in the earlier
    layout, as [components/generate_prompts/src/main.py]) and the notebook
    that chains it with hub components.  The first part of this file embeds
    that Python code.  The second part models the pipeline core (schema
    registry, stage descriptors, graph, validator, compiler) which the
    notebook only calls. *)

From Stdlib Require Import String Ascii ZArith Lia Bool Arith Permutation List.
Import ListNotations.
Open Scope string_scope.
Open Scope list_scope.

(* ================================================================== *)
(** * Part I: the prompt-generation component (Python source)          *)
(* ================================================================== *)

(** A pandas frame restricted to what [load] builds: named columns and rows
    of string cells.  A dask frame is a pandas frame cut in partitions. *)
Record DataFrame := mkDataFrame {
  columns : list string;
  rows : list (list string)
}.

Record DaskDataFrame := mkDask {
  frame : DataFrame;
  npartitions : nat
}.

(** [itertools.product(a, b, c)]: the rightmost iterable advances fastest. *)
Definition product {A B C : Type} (xs : list A) (ys : list B) (zs : list C)
  : list (A * B * C) :=
  flat_map (fun x => flat_map (fun y => map (fun z => (x, y, z)) zs) ys) xs.

(** [DataFrame.head(n)]: the first [n] rows; for a negative [n], every row
    but the last [|n|]. *)
Definition head (n : Z) (df : DataFrame) : DataFrame :=
  if (0 <=? n)%Z
  then mkDataFrame (columns df) (firstn (Z.to_nat n) (rows df))
  else mkDataFrame (columns df)
         (firstn (length (rows df) - Z.to_nat (- n)) (rows df)).

(** Truth value of an [Optional[int]]: [None] and [0] are falsy. *)
Definition truthy (n : option Z) : bool :=
  match n with
  | None => false
  | Some z => negb (z =? 0)%Z
  end.

(** [pd.DataFrame(prompts, columns=[c])]: one column, one row per prompt. *)
Definition frame_of_prompts (c : string) (prompts : list string) : DataFrame :=
  mkDataFrame [c] (map (fun p => [p]) prompts).

(** [dd.from_pandas(df, npartitions=k)]. *)
Definition from_pandas (df : DataFrame) (k : nat) : DaskDataFrame :=
  mkDask df k.

Definition interior_styles : list string :=
  [ "art deco"; "bauhaus"; "bouclé"; "maximalist"; "brutalist"; "coastal";
    "minimalist"; "rustic"; "hollywood regency"; "midcentury modern";
    "modern organic"; "contemporary"; "modern"; "scandinavian"; "eclectic";
    "bohemiam"; "industrial"; "traditional"; "transitional"; "farmhouse";
    "country"; "asian"; "mediterranean"; "rustic"; "southwestern"; "coastal" ].

Definition interior_prefix : list string :=
  [ "comfortable"; "luxurious"; "simple" ].

Definition rooms : list string :=
  [ "Bathroom"; "Living room"; "Hotel room"; "Lobby"; "Entrance hall";
    "Kitchen"; "Family room"; "Master bedroom"; "Bedroom"; "Kids bedroom";
    "Laundry room"; "Guest room"; "Home office"; "Library room"; "Playroom";
    "Home Theater room"; "Gym room"; "Basement room"; "Garage";
    "Walk-in closet"; "Pantry"; "Gaming room"; "Attic"; "Sunroom";
    "Storage room"; "Study room"; "Dining room"; "Loft"; "Studio room";
    "Appartement" ].

(** [str.lower] on the ASCII range; bytes outside [A-Z] (among them the
    UTF-8 bytes of an accented letter that is already lower case) are kept. *)
Definition lower_ascii (c : ascii) : ascii :=
  let n := nat_of_ascii c in
  if (65 <=? n)%nat && (n <=? 90)%nat then ascii_of_nat (n + 32) else c.

Fixpoint ascii_lower (s : string) : string :=
  match s with
  | EmptyString => EmptyString
  | String c t => String (lower_ascii c) (ascii_lower t)
  end.

Definition is_upper (c : ascii) : bool :=
  let n := nat_of_ascii c in (65 <=? n)%nat && (n <=? 90)%nat.

Fixpoint no_upper (s : string) : bool :=
  match s with
  | EmptyString => true
  | String c t => negb (is_upper c) && no_upper t
  end.

Section GeneratePrompts.

(** Python's [str.lower] is Unicode lower-casing; the component is
    embedded over any such function, [ascii_lower] being the one the
    strings of this program need. *)
Variable lower : string -> string.

(** The f-string of [make_interior_prompt]: its pieces, concatenated. *)
Definition make_interior_prompt (room prefix style : string) : string :=
  String.concat ""
    [ lower prefix; " "; lower room; ", "; lower style; " interior design" ].

(** [room_tuples] and [prompts] of [load]: the triples of the product, and
    the prompt of each, in the order the product yields them. *)
Definition room_tuples : list (string * string * string) :=
  product rooms interior_prefix interior_styles.

Definition prompts : list string :=
  map (fun x => match x with (r, p, s) => make_interior_prompt r p s end)
      room_tuples.

(** [load], with the name of the single column left open: the notebook
    writes ["prompt"], the earlier [main.py] writes ["prompts_text"]. *)
Definition load_into (column : string) (n_rows_to_load : option Z)
  : DaskDataFrame :=
  let pandas_df := frame_of_prompts column prompts in
  let pandas_df :=
    if truthy n_rows_to_load
    then match n_rows_to_load with
         | Some n => head n pandas_df
         | None => pandas_df
         end
    else pandas_df in
  from_pandas pandas_df 1.

(** [GeneratePromptsComponent.load] of [src/pipeline.ipynb]. *)
Definition load (n_rows_to_load : option Z) : DaskDataFrame :=
  load_into "prompt" n_rows_to_load.

(** [GeneratePromptsComponent.load] of the earlier
    [components/generate_prompts/src/main.py]. *)
Definition load_main_py (n_rows_to_load : option Z) : DaskDataFrame :=
  load_into "prompts_text" n_rows_to_load.

End GeneratePrompts.

(** The environment check of the notebook: [nvidia-smi] either answers
    (one accelerator, named GPU) or raises (both left at [None]). *)
Definition detect_accelerator (nvidia_smi_found : bool)
  : option Z * option string :=
  if nvidia_smi_found then (Some 1%Z, Some "GPU") else (None, None).

Definition number_of_accelerators (found : bool) : option Z :=
  fst (detect_accelerator found).

Definition accelerator_name (found : bool) : option string :=
  snd (detect_accelerator found).

(* ================================================================== *)
(** * Part II: the pipeline core the notebook calls                    *)
(* ================================================================== *)

(** The notebook builds its pipeline through [Pipeline], [read], [apply],
    [write], [Resources] and the runner of the pipeline library; that
    library is not among the sources.  Its behaviour is taken from the
    specification, section by section. *)

(** ** Schema registry *)

(** Modelled from the spec: the closed set of field types of the schema
    registry (the registry itself is missing from the sources). *)
Inductive FieldType : Type :=
| TBoolean | TInteger | TFloat | TString | TBinary
| TList (elem : FieldType)
| TStruct.

Fixpoint FieldType_eqb (a b : FieldType) : bool :=
  match a, b with
  | TBoolean, TBoolean | TInteger, TInteger | TFloat, TFloat
  | TString, TString | TBinary, TBinary | TStruct, TStruct => true
  | TList x, TList y => FieldType_eqb x y
  | _, _ => false
  end.

(** Modelled from the spec: a field is a named, typed leaf; a schema maps a
    subset name to an ordered set of fields (the schema classes are missing
    from the sources). *)
Record Field := mkField {
  field_name : string;
  field_type : FieldType
}.

Definition Schema := list (string * list Field).

Definition subset_names (s : Schema) : list string := map fst s.

Fixpoint lookup_subset (n : string) (s : Schema) : option (list Field) :=
  match s with
  | [] => None
  | (m, fs) :: rest => if String.eqb n m then Some fs else lookup_subset n rest
  end.

Fixpoint lookup_field (n : string) (fs : list Field) : option FieldType :=
  match fs with
  | [] => None
  | f :: rest =>
      if String.eqb n (field_name f) then Some (field_type f)
      else lookup_field n rest
  end.

(** What the available schema offers for field [f] of subset [sub]:
    its type there, or nothing. *)
Definition actual_type (available : Schema) (sub : string) (f : Field)
  : option FieldType :=
  match lookup_subset sub available with
  | None => None
  | Some fs => lookup_field (field_name f) fs
  end.

Definition field_ok (available : Schema) (sub : string) (f : Field) : bool :=
  match actual_type available sub f with
  | Some t => FieldType_eqb t (field_type f)
  | None => false
  end.

(** Modelled from the spec: [is_subset required available] of the schema
    registry (missing from the sources): every subset name of [required]
    exists in [available], and every field of it exists there with an
    identical type; no coercion. *)
Definition is_subset (required available : Schema) : bool :=
  forallb (fun e =>
             match lookup_subset (fst e) available with
             | None => false
             | Some _ => forallb (field_ok available (fst e)) (snd e)
             end) required.

(** Modelled from the spec: the tuple
    [(subset, field, expected_type, actual_type_or_missing)] in which the
    registry reports one mismatch. *)
Record Mismatch := mkMismatch {
  mm_subset : string;
  mm_field : string;
  mm_expected : FieldType;
  mm_actual : option FieldType
}.

(** Modelled from the spec: the structured list of mismatches of the schema
    registry (missing from the sources), one tuple per field of [required]
    that [available] lacks or types differently. *)
Definition schema_mismatches (required available : Schema) : list Mismatch :=
  flat_map (fun e =>
              flat_map (fun f =>
                          if field_ok available (fst e) f then []
                          else [mkMismatch (fst e) (field_name f) (field_type f)
                                           (actual_type available (fst e) f)])
                       (snd e)) required.

(** Modelled from the spec: the subset names of [required] that do not
    exist in [available]. *)
Definition missing_subsets (required available : Schema) : list string :=
  filter (fun n => negb (existsb (String.eqb n) (subset_names available)))
         (subset_names required).

(** ** Stage descriptors *)

(** Modelled from the spec: argument types and values of a stage (the
    component specification classes are missing from the sources).  A float
    literal is kept as mantissa and decimal exponent. *)
Inductive ArgType : Type := AStr | AInt | AFloat | ABool | AList | ADict.

#[warnings="-register-all"]
Inductive ArgValue : Type :=
| VStr (s : string)
| VInt (z : Z)
| VFloat (mantissa exponent : Z)
| VBool (b : bool)
| VList (items : list ArgValue)
| VDict (entries : list (string * ArgValue)).

Definition ArgType_eqb (a b : ArgType) : bool :=
  match a, b with
  | AStr, AStr | AInt, AInt | AFloat, AFloat
  | ABool, ABool | AList, AList | ADict, ADict => true
  | _, _ => false
  end.

Definition type_of_value (v : ArgValue) : ArgType :=
  match v with
  | VStr _ => AStr
  | VInt _ => AInt
  | VFloat _ _ => AFloat
  | VBool _ => ABool
  | VList _ => AList
  | VDict _ => ADict
  end.

(** Modelled from the spec: one declared argument, [(type, default,
    required)]. *)
Record ArgDecl := mkArgDecl {
  arg_type : ArgType;
  arg_default : option ArgValue;
  arg_required : bool
}.

Definition Arguments := list (string * ArgValue).

(** Modelled from the spec: the resource request of a stage,
    [{accelerator_count, accelerator_kind}]; the notebook leaves the count
    at [None] when no accelerator is found. *)
Record Resources := mkResources {
  accelerator_count : option Z;
  accelerator_kind : option string
}.

(** Modelled from the spec: the opaque reference to the executable unit, a
    tagged reference to a container image or to an in-process callable. *)
Inductive ExecutableRef : Type :=
| ContainerImage (coordinate : string)
| Callable (handle : string).

(** Modelled from the spec: the metadata of one pipeline node (the stage
    classes are missing from the sources).  [arguments] is the declared
    argument schema, [supplied] the values given where the stage is added. *)
Record StageDescriptor := mkStage {
  name : string;
  consumes : Schema;
  produces : Schema;
  arguments : list (string * ArgDecl);
  supplied : Arguments;
  resources : Resources;
  executable_ref : ExecutableRef
}.

Definition with_supplied (s : StageDescriptor) (a : Arguments)
  : StageDescriptor :=
  mkStage (name s) (consumes s) (produces s) (arguments s) a
          (resources s) (executable_ref s).

Fixpoint lookup_arg {A : Type} (n : string) (l : list (string * A)) : option A :=
  match l with
  | [] => None
  | (m, v) :: rest => if String.eqb n m then Some v else lookup_arg n rest
  end.

(** Modelled from the spec: the resolved arguments of a stage, the supplied
    values, then the declared default of every argument that was not
    supplied. *)
Definition resolve (decls : list (string * ArgDecl)) (given : Arguments)
  : Arguments :=
  given ++
  flat_map (fun d =>
              match lookup_arg (fst d) given, arg_default (snd d) with
              | None, Some v => [(fst d, v)]
              | _, _ => []
              end) decls.

Definition resolved (s : StageDescriptor) : Arguments :=
  resolve (arguments s) (supplied s).

(** Canonical form of arguments: mappings ordered by key, at every depth. *)
Fixpoint insert_by_name {A : Type} (e : string * A) (l : list (string * A))
  : list (string * A) :=
  match l with
  | [] => [e]
  | x :: rest =>
      if String.leb (fst e) (fst x) then e :: l
      else x :: insert_by_name e rest
  end.

Definition sort_by_name {A : Type} (l : list (string * A)) : list (string * A) :=
  fold_right insert_by_name [] l.

Fixpoint canonical_value (v : ArgValue) : ArgValue :=
  match v with
  | VList items => VList (map canonical_value items)
  | VDict entries =>
      VDict (sort_by_name
               (map (fun e => match e with (k, x) => (k, canonical_value x) end)
                    entries))
  | _ => v
  end.

(** Modelled from the spec: canonicalization of the arguments that enter a
    cache key, consistent ordering and normalized composite values. *)
Definition canonicalize (a : Arguments) : Arguments :=
  sort_by_name (map (fun e => (fst e, canonical_value (snd e))) a).

Fixpoint ArgValue_eq_dec (a b : ArgValue) {struct a} : {a = b} + {a <> b}.
Proof.
  decide equality;
    try apply string_dec; try apply Z.eq_dec; try apply Bool.bool_dec.
  - apply list_eq_dec. apply ArgValue_eq_dec.
  - apply list_eq_dec. intros [k1 v1] [k2 v2].
    destruct (string_dec k1 k2); [|right; congruence].
    destruct (ArgValue_eq_dec v1 v2); [left; congruence|right; congruence].
Defined.

Definition ExecutableRef_eq_dec (a b : ExecutableRef) : {a = b} + {a <> b}.
Proof. decide equality; apply string_dec. Defined.

Definition Arguments_eq_dec (a b : Arguments) : {a = b} + {a <> b}.
Proof.
  apply list_eq_dec. intros [k1 v1] [k2 v2].
  destruct (string_dec k1 k2); [|right; congruence].
  destruct (ArgValue_eq_dec v1 v2); [left; congruence|right; congruence].
Defined.

(** The configuration of a stage that enters its cache key. *)
Definition configuration (s : StageDescriptor) : ExecutableRef * Arguments :=
  (executable_ref s, canonicalize (resolved s)).

Definition same_configuration (c : ExecutableRef * Arguments)
           (s : StageDescriptor) : bool :=
  if ExecutableRef_eq_dec (fst c) (executable_ref s)
  then if Arguments_eq_dec (snd c) (canonicalize (resolved s))
       then true else false
  else false.

(** ** Errors *)

(** Modelled from the spec: what an [ArgumentError] names (missing, unknown
    or mistyped argument). *)
Inductive ArgProblem : Type :=
| MissingArgument (arg : string)
| UnknownArgument (arg : string)
| MistypedArgument (arg : string) (expected actual : ArgType).

(** Modelled from the spec: what a [SchemaError] carries, "incompatible or
    missing fields/subsets": the required subsets that no upstream
    provides and the tuples of the missing or mismatched fields, or the
    subset names that several upstreams provide. *)
Inductive SchemaDetail : Type :=
| Incompatible (missing : list string) (tuples : list Mismatch)
| Ambiguous (subsets : list string).

(** Modelled from the spec: the error taxonomy of section 7, build-time
    part. *)
Inductive BuildError : Type :=
| SchemaError (stage : string) (detail : SchemaDetail)
| CycleError (unvisited : list nat)
| ArgumentError (stage : string) (problem : ArgProblem)
| ResourceError (stage : string)
| FrozenGraphError.

(** Modelled from the spec: the report of a [consumes] that is not a
    subset of what is available. *)
Definition incompatibility (required available : Schema) : SchemaDetail :=
  Incompatible (missing_subsets required available)
               (schema_mismatches required available).

(** ** Pipeline graph *)

(** Modelled from the spec: the graph owns its stage descriptors, in
    declaration order (a handle is a position), and its edges
    [(upstream, downstream)], in edge-declaration order. *)
Record PipelineGraph := mkGraph {
  stages : list StageDescriptor;
  edges : list (nat * nat);
  frozen : bool
}.

Definition empty_graph : PipelineGraph := mkGraph [] [] false.

Definition upstreams (g : PipelineGraph) (i : nat) : list nat :=
  map fst (filter (fun e => Nat.eqb (snd e) i) (edges g)).

Definition mem (i : nat) (l : list nat) : bool := existsb (Nat.eqb i) l.

(** A stage is ready once it is unvisited and all its upstreams are
    visited. *)
Definition ready (g : PipelineGraph) (visited : list nat) (i : nat) : bool :=
  negb (mem i visited) && forallb (fun u => mem u visited) (upstreams g i).

(** Ties among ready stages go to the earliest declared one. *)
Definition next_ready (g : PipelineGraph) (visited : list nat) : option nat :=
  find (ready g visited) (seq 0 (length (stages g))).

Fixpoint toposort_from (fuel : nat) (g : PipelineGraph) (visited : list nat)
  : list nat :=
  match fuel with
  | O => visited
  | S fuel' =>
      match next_ready g visited with
      | Some i => toposort_from fuel' g (visited ++ [i])
      | None => visited
      end
  end.

(** Modelled from the spec: the topological sort of validator and compiler;
    a stage left unvisited after the pass signals a cycle. *)
Definition toposort (g : PipelineGraph) : list nat :=
  toposort_from (length (stages g)) g [].

Definition unvisited (g : PipelineGraph) : list nat :=
  filter (fun i => negb (mem i (toposort g))) (seq 0 (length (stages g))).

Definition acyclic (g : PipelineGraph) : bool :=
  Nat.eqb (length (toposort g)) (length (stages g)).

(** The [produces] of the upstreams of stage [i], in edge-declaration order. *)
Definition upstream_produces (g : PipelineGraph) (i : nat) : list Schema :=
  flat_map (fun u => match nth_error (stages g) u with
                     | Some s => [produces s]
                     | None => []
                     end) (upstreams g i).

(** Modelled from the spec: the union of the upstream schemas;
    [lookup_subset] takes the first upstream, in edge-declaration order,
    that provides a subset name. *)
Definition union_of (ss : list Schema) : Schema := concat ss.

Definition available_to (g : PipelineGraph) (i : nat) : Schema :=
  union_of (upstream_produces g i).

(** Modelled from the spec: the subset names that more than one upstream
    provides, which validation rejects as ambiguous. *)
Fixpoint ambiguous_subsets (ss : list Schema) : list string :=
  match ss with
  | [] => []
  | s :: rest =>
      filter (fun n => existsb (fun s' => existsb (String.eqb n) (subset_names s'))
                               rest)
             (subset_names s)
      ++ ambiguous_subsets rest
  end.

(** The builder operations answer with an error or a result. *)
Definition result (A : Type) : Type := BuildError + A.

Definition bind {A B : Type} (r : result A) (k : A -> result B) : result B :=
  match r with
  | inl e => inl e
  | inr a => k a
  end.

Notation "x <- r ;; k" := (bind r (fun x => k))
  (at level 61, r at next level, right associativity).

(** Modelled from the spec: [add_source(stage) -> handle] of the graph
    builder (missing from the sources), which fails if [stage.consumes] is
    non-empty. *)
Definition add_source (g : PipelineGraph) (s : StageDescriptor)
  : result (PipelineGraph * nat) :=
  if frozen g then inl FrozenGraphError
  else match consumes s with
       | [] => inr (mkGraph (stages g ++ [s]) (edges g) false,
                    length (stages g))
       | _ => inl (SchemaError (name s) (incompatibility (consumes s) []))
       end.

(** Modelled from the spec: [add_dependent(stage, upstream_handles) ->
    handle] of the graph builder (missing from the sources), which fails
    with [CycleError] if the new stage closes a cycle and with [SchemaError]
    if its [consumes] is not a subset of the union of the upstreams'
    [produces]. *)
Definition add_dependent (g : PipelineGraph) (s : StageDescriptor)
           (upstream_handles : list nat) : result (PipelineGraph * nat) :=
  if frozen g then inl FrozenGraphError
  else
    let h := length (stages g) in
    let g' := mkGraph (stages g ++ [s])
                      (edges g ++ map (fun u => (u, h)) upstream_handles)
                      false in
    if negb (acyclic g') then inl (CycleError (unvisited g'))
    else if negb (is_subset (consumes s) (available_to g' h))
         then inl (SchemaError (name s)
                     (incompatibility (consumes s) (available_to g' h)))
         else inr (g', h).

(** A source followed by stages that each depend on the one before. *)
Fixpoint chain_from (g : PipelineGraph) (prev : nat)
         (ss : list StageDescriptor) : result PipelineGraph :=
  match ss with
  | [] => inr g
  | s :: rest =>
      gh <- add_dependent g s [prev] ;;
      chain_from (fst gh) (snd gh) rest
  end.

Definition build_linear (ss : list StageDescriptor) : result PipelineGraph :=
  match ss with
  | [] => inr empty_graph
  | s :: rest =>
      gh <- add_source empty_graph s ;;
      chain_from (fst gh) (snd gh) rest
  end.

Fixpoint update {A : Type} (i : nat) (f : A -> A) (l : list A) : list A :=
  match l, i with
  | [], _ => []
  | x :: rest, O => f x :: rest
  | x :: rest, S j => x :: update j f rest
  end.

(** The same pipeline declared again with other argument values for
    stage [i]. *)
Definition with_arguments (g : PipelineGraph) (i : nat) (a : Arguments)
  : PipelineGraph :=
  mkGraph (update i (fun s => with_supplied s a) (stages g))
          (edges g) (frozen g).

(** ** Validator *)

(** Modelled from the spec: step 1 of the validator, the acyclicity
    check. *)
Definition cycle_errors (g : PipelineGraph) : list BuildError :=
  if acyclic g then [] else [CycleError (unvisited g)].

(** Modelled from the spec: step 2 of the validator for one stage, schema
    compatibility with its upstreams; subset names that several upstreams
    provide are rejected. *)
Definition stage_schema_errors (g : PipelineGraph) (i : nat)
           (s : StageDescriptor) : list BuildError :=
  (if is_subset (consumes s) (available_to g i) then []
   else [SchemaError (name s)
           (incompatibility (consumes s) (available_to g i))])
  ++ match ambiguous_subsets (upstream_produces g i) with
     | [] => []
     | l => [SchemaError (name s) (Ambiguous l)]
     end.

Definition indexed (g : PipelineGraph) : list (nat * StageDescriptor) :=
  combine (seq 0 (length (stages g))) (stages g).

Definition schema_errors (g : PipelineGraph) : list BuildError :=
  flat_map (fun e => stage_schema_errors g (fst e) (snd e)) (indexed g).

(** Modelled from the spec: step 3 of the validator for one stage: a
    required argument needs a supplied value or a default, a supplied value
    has the declared type, unknown names are rejected. *)
Definition argument_problems (s : StageDescriptor) : list ArgProblem :=
  flat_map (fun d =>
              match lookup_arg (fst d) (supplied s), arg_default (snd d) with
              | None, None =>
                  if arg_required (snd d) then [MissingArgument (fst d)] else []
              | _, _ => []
              end) (arguments s)
  ++ flat_map (fun a =>
                 match lookup_arg (fst a) (arguments s) with
                 | None => [UnknownArgument (fst a)]
                 | Some d =>
                     if ArgType_eqb (arg_type d) (type_of_value (snd a)) then []
                     else [MistypedArgument (fst a) (arg_type d)
                                            (type_of_value (snd a))]
                 end) (supplied s).

Definition argument_errors (g : PipelineGraph) : list BuildError :=
  flat_map (fun s => map (ArgumentError (name s)) (argument_problems s))
           (stages g).

(** Modelled from the spec: step 4 of the validator, resource sanity: the
    accelerator count is not negative, and a positive count comes with an
    accelerator kind. *)
Definition resource_sane (r : Resources) : bool :=
  match accelerator_count r with
  | None => true
  | Some c =>
      (0 <=? c)%Z &&
      (if (0 <? c)%Z
       then match accelerator_kind r with Some _ => true | None => false end
       else true)
  end.

Definition resource_errors (g : PipelineGraph) : list BuildError :=
  flat_map (fun s => if resource_sane (resources s) then []
                     else [ResourceError (name s)]) (stages g).

(** Modelled from the spec: the validator of section 4.4 (missing from the
    sources): acyclicity, schema compatibility, arguments, resources, in
    this order, every failure collected. *)
Definition validate (g : PipelineGraph) : list BuildError :=
  cycle_errors g ++ schema_errors g ++ argument_errors g ++ resource_errors g.

(** Modelled from the spec: [finalize()] of the graph builder (missing from
    the sources), full validation, then the structure is frozen. *)
Definition finalize (g : PipelineGraph) : list BuildError + PipelineGraph :=
  match validate g with
  | [] => inr (mkGraph (stages g) (edges g) true)
  | errs => inl errs
  end.

(** ** Compiler *)

(** Modelled from the spec: the hash behind the cache keys, an interface;
    [key_leb] orders keys for [sorted(upstream_cache_keys)]. *)
Class Hasher (K : Type) := {
  hash : ExecutableRef -> Arguments -> list K -> K;
  key_leb : K -> K -> bool
}.

(** A hasher without collisions. *)
Definition collision_free {K : Type} (H : Hasher K) : Prop :=
  forall r a ks r' a' ks',
    hash r a ks = hash r' a' ks' -> r = r' /\ a = a' /\ ks = ks'.

Fixpoint insert_key {K : Type} {H : Hasher K} (k : K) (l : list K) : list K :=
  match l with
  | [] => [k]
  | x :: rest => if key_leb k x then k :: l else x :: insert_key k rest
  end.

Definition sort_keys {K : Type} {H : Hasher K} (l : list K) : list K :=
  fold_right insert_key [] l.

(** Values computed stage by stage along the topological order: the value
    of a stage is a function of the stage and of its upstreams' values. *)
Fixpoint value_of {A : Type} (i : nat) (acc : list (nat * A)) : option A :=
  match acc with
  | [] => None
  | (j, a) :: rest => if Nat.eqb i j then Some a else value_of i rest
  end.

Definition values_of {A : Type} (acc : list (nat * A)) (us : list nat)
  : list A :=
  flat_map (fun u => match value_of u acc with
                     | Some a => [a]
                     | None => []
                     end) us.

Definition eval_step {A : Type} (f : StageDescriptor -> list A -> A)
           (g : PipelineGraph) (acc : list (nat * A)) (i : nat)
  : list (nat * A) :=
  match nth_error (stages g) i with
  | Some s => acc ++ [(i, f s (values_of acc (upstreams g i)))]
  | None => acc
  end.

Definition evaluate {A : Type} (f : StageDescriptor -> list A -> A)
           (g : PipelineGraph) : list (nat * A) :=
  fold_left (eval_step f g) (toposort g) [].

(** Modelled from the spec: the cache key formula,
    [hash(executable_ref, canonicalized_arguments,
    sorted(upstream_cache_keys))]. *)
Definition stage_key {K : Type} {H : Hasher K} (s : StageDescriptor)
           (upstream_keys : list K) : K :=
  hash (executable_ref s) (canonicalize (resolved s)) (sort_keys upstream_keys).

Definition cache_keys {K : Type} {H : Hasher K} (g : PipelineGraph)
  : list (nat * K) :=
  evaluate stage_key g.

(** Modelled from the spec: one stage execution of the manifest, with its
    position, cache key, resolved schema and resource request. *)
Record StageExecution (K : Type) := mkExec {
  exec_stage : nat;
  exec_name : string;
  cache_key : K;
  exec_consumes : Schema;
  exec_produces : Schema;
  exec_resources : Resources
}.

Arguments mkExec {K}.
Arguments exec_stage {K}.
Arguments exec_name {K}.
Arguments cache_key {K}.
Arguments exec_consumes {K}.
Arguments exec_produces {K}.
Arguments exec_resources {K}.

Definition ExecutionManifest (K : Type) : Type := list (StageExecution K).

Definition annotate {K : Type} (g : PipelineGraph) (e : nat * K)
  : list (StageExecution K) :=
  match nth_error (stages g) (fst e) with
  | Some s => [mkExec (fst e) (name s) (snd e) (consumes s) (produces s)
                      (resources s)]
  | None => []
  end.

(** Modelled from the spec: [compile(graph) -> ExecutionManifest] (the
    compiler is missing from the sources): the stage executions in
    topological order, ties by declaration order, each with its cache key. *)
Definition compile {K : Type} {H : Hasher K} (g : PipelineGraph)
  : ExecutionManifest K :=
  flat_map (annotate g) (cache_keys g).

Definition key_of {K : Type} (m : ExecutionManifest K) (i : nat) : option K :=
  match find (fun e => Nat.eqb (exec_stage e) i) m with
  | Some e => Some (cache_key e)
  | None => None
  end.

(** [reaches g a b]: there is a path of edges from stage [a] to stage [b]
    (of length zero when [a = b]); [b] is then [a] or downstream of [a]. *)
Inductive reaches (g : PipelineGraph) (a : nat) : nat -> Prop :=
| reaches_refl : reaches g a a
| reaches_step : forall u b, reaches g a u -> In u (upstreams g b) ->
                             reaches g a b.

(** [b] is strictly downstream of [a]. *)
Definition downstream (g : PipelineGraph) (a b : nat) : Prop :=
  exists u, reaches g a u /\ In u (upstreams g b).

(** Occurrences of configuration [c] in the unfolding of a stage: the stage
    itself if it has that configuration, plus those of its upstreams. *)
Definition occurrences (c : ExecutableRef * Arguments)
           (s : StageDescriptor) (up : list nat) : nat :=
  (if same_configuration c s then 1 else 0) + list_sum up.

(** A hasher that keeps its whole input: the key of a stage is the tree of
    configurations it was derived from.  Keys are ordered by size. *)
#[warnings="-register-all"]
Inductive TreeKey : Type :=
| Digest (r : ExecutableRef) (a : Arguments) (ups : list TreeKey).

Fixpoint weight (k : TreeKey) : nat :=
  match k with
  | Digest _ _ ups => S (list_sum (map weight ups))
  end.

#[export] Instance tree_hasher : Hasher TreeKey := {|
  hash := Digest;
  key_leb := fun a b => Nat.leb (weight a) (weight b)
|}.

(** ** The pipeline of the notebook *)

(** The hub components are referred to by name; what each consumes,
    produces and accepts as arguments is declared on the hub, not in this
    repository. *)
Record Contract := mkContract {
  contract_consumes : Schema;
  contract_produces : Schema;
  contract_arguments : list (string * ArgDecl)
}.

Definition hub_stage (component : string) (c : Contract) (args : Arguments)
           (r : Resources) : StageDescriptor :=
  mkStage component (contract_consumes c) (contract_produces c)
          (contract_arguments c) args r (ContainerImage component).

(** A stage added without a [resources] argument requests no accelerator. *)
Definition no_resources : Resources := mkResources None None.

(** [Resources(accelerator_number=number_of_accelerators,
    accelerator_name=accelerator_name)]. *)
Definition detected_resources (found : bool) : Resources :=
  mkResources (number_of_accelerators found) (accelerator_name found).

(** The notebook declares fields without subsets; such a flat mapping is
    the schema with one unnamed subset. *)
Definition flat_schema (fs : list Field) : Schema := [("", fs)].

(** [@lightweight_component(produces={"prompt": pa.string()})], read with
    [n_rows_to_load] set to 10: nothing is consumed. *)
Definition generate_prompts_stage : StageDescriptor :=
  mkStage "GeneratePromptsComponent"
          []
          (flat_schema [mkField "prompt" TString])
          [("n_rows_to_load", mkArgDecl AInt None true)]
          [("n_rows_to_load", VInt 10)]
          no_resources
          (Callable "GeneratePromptsComponent").

Definition retrieve_arguments : Arguments :=
  [ ("url_mapping_path",
     VStr "hf://datasets/fondant-ai/datacomp-small-clip/id_mapping");
    ("faiss_index_path",
     VStr "hf://datasets/fondant-ai/datacomp-small-clip/faiss");
    ("num_images", VInt 2) ].

Definition download_arguments : Arguments :=
  [ ("timeout", VInt 1); ("retries", VInt 0); ("image_size", VInt 512);
    ("resize_mode", VStr "center_crop");
    ("resize_only_if_bigger", VBool false);
    ("min_image_size", VInt 0);
    ("max_aspect_ratio", VFloat 25 (-1)) ].

Definition caption_arguments : Arguments :=
  [ ("model_id", VStr "Salesforce/blip-image-captioning-base");
    ("batch_size", VInt 8); ("max_new_tokens", VInt 50) ].

Definition segment_arguments : Arguments :=
  [ ("model_id", VStr "openmmlab/upernet-convnext-small");
    ("batch_size", VInt 8) ].

(** [pipeline.read(...)] followed by the four [.apply(...)] calls, in the
    order of the notebook. *)
Definition notebook_stages (found : bool)
           (retrieve download caption segment : Contract)
  : list StageDescriptor :=
  [ generate_prompts_stage;
    hub_stage "retrieve_from_faiss_by_prompt" retrieve retrieve_arguments
              (detected_resources found);
    hub_stage "download_images" download download_arguments no_resources;
    hub_stage "caption_images" caption caption_arguments
              (detected_resources found);
    hub_stage "segment_images" segment segment_arguments
              (detected_resources found) ].

(** Declarations that accept exactly the given values, all required. *)
Definition declared_like (a : Arguments) : list (string * ArgDecl) :=
  map (fun e => (fst e, mkArgDecl (type_of_value (snd e)) None true)) a.

(** Contracts under which the notebook's chain is schema-compatible: each
    stage lists in [produces] the fields it hands on. *)
Definition example_retrieve : Contract :=
  mkContract (flat_schema [mkField "prompt" TString])
             (flat_schema [mkField "url" TString])
             (declared_like retrieve_arguments).

Definition example_download : Contract :=
  mkContract (flat_schema [mkField "url" TString])
             (flat_schema [mkField "image" TBinary;
                           mkField "image_width" TInteger;
                           mkField "image_height" TInteger])
             (declared_like download_arguments).

Definition example_caption : Contract :=
  mkContract (flat_schema [mkField "image" TBinary])
             (flat_schema [mkField "image" TBinary;
                           mkField "caption" TString])
             (declared_like caption_arguments).

Definition example_segment : Contract :=
  mkContract (flat_schema [mkField "image" TBinary])
             (flat_schema [mkField "segmentation_map" TBinary])
             (declared_like segment_arguments).

Definition example_pipeline (found : bool) : list StageDescriptor :=
  notebook_stages found example_retrieve example_download example_caption
                  example_segment.

(** The four-stage scenario of the specification. *)
Definition scenario_stage (n : string) (c p : Schema) (a : Arguments)
  : StageDescriptor :=
  mkStage n c p (declared_like a) a no_resources (ContainerImage n).

Definition scenario : list StageDescriptor :=
  [ scenario_stage "source" [] [("prompts", [mkField "prompt" TString])] [];
    scenario_stage "A" [("prompts", [mkField "prompt" TString])]
                   [("urls", [mkField "url" TString])] [];
    scenario_stage "B" [("urls", [mkField "url" TString])]
                   [("images", [mkField "data" TBinary])] [];
    scenario_stage "C" [("images", [mkField "data" TBinary])]
                   [("captions", [mkField "text" TString])]
                   [("batch_size", VInt 8)] ].

(** ** Auxiliary notions for the proofs *)

(** [ordered g l]: [l] lists distinct stages of [g], each one after all its
    upstreams. *)
Inductive ordered (g : PipelineGraph) : list nat -> Prop :=
| ordered_nil : ordered g []
| ordered_snoc : forall l i,
    ordered g l ->
    i < length (stages g) ->
    ~ In i l ->
    (forall u, In u (upstreams g i) -> In u l) ->
    ordered g (l ++ [i]).

(** Every edge goes from an earlier declared stage to a later one, as in a
    graph that was only ever appended to. *)
Definition forward (g : PipelineGraph) : Prop :=
  forall u d, In (u, d) (edges g) -> u < d.

Definition eval_along {A : Type} (f : StageDescriptor -> list A -> A)
           (g : PipelineGraph) (l : list nat) (acc : list (nat * A))
  : list (nat * A) :=
  fold_left (eval_step f g) l acc.

(** The cache key of a stage together with the number of occurrences of a
    configuration in its unfolding. *)
Definition key_and_count {K : Type} {H : Hasher K}
           (c : ExecutableRef * Arguments) (s : StageDescriptor)
           (up : list (K * nat)) : K * nat :=
  (stage_key s (map fst up), occurrences c s (map snd up)).

(** The graph of a linear chain: stage [i] feeds stage [i + 1]. *)
Definition linear_graph (ss : list StageDescriptor) : PipelineGraph :=
  mkGraph ss (map (fun i => (i, S i)) (seq 0 (length ss - 1))) false.

Fixpoint linked (prev : StageDescriptor) (rest : list StageDescriptor) : bool :=
  match rest with
  | [] => true
  | s :: rest' => is_subset (consumes s) (produces prev) && linked s rest'
  end.

Definition stage_sound (s : StageDescriptor) : bool :=
  match argument_problems s with [] => true | _ => false end
  && resource_sane (resources s).

(** A chain that starts with a source, in which every stage consumes from
    what the stage before it produces, with sound arguments and resources. *)
Definition well_formed_chain (ss : list StageDescriptor) : bool :=
  match ss with
  | [] => false
  | s :: rest =>
      match consumes s with [] => true | _ => false end
      && linked s rest
      && forallb stage_sound ss
  end.

(** ** Example graphs *)

(** A pipeline with two branches: the prompts feed two retrieval stages,
    and only the first of them is followed by the download stage. *)
Definition second_retrieve_arguments : Arguments :=
  [ ("url_mapping_path",
     VStr "hf://datasets/fondant-ai/datacomp-small-clip/id_mapping");
    ("faiss_index_path",
     VStr "hf://datasets/fondant-ai/datacomp-small-clip/faiss");
    ("num_images", VInt 4) ].

Definition fan_out_graph : PipelineGraph :=
  mkGraph
    [ generate_prompts_stage;
      hub_stage "retrieve_from_faiss_by_prompt" example_retrieve
                retrieve_arguments no_resources;
      hub_stage "retrieve_from_faiss_by_prompt" example_retrieve
                second_retrieve_arguments no_resources;
      hub_stage "download_images" example_download download_arguments
                no_resources ]
    [ (0, 1); (0, 2); (1, 3) ]
    false.

Definition changed_retrieve_arguments : Arguments :=
  [ ("url_mapping_path",
     VStr "hf://datasets/fondant-ai/datacomp-small-clip/id_mapping");
    ("faiss_index_path",
     VStr "hf://datasets/fondant-ai/datacomp-small-clip/faiss");
    ("num_images", VInt 3) ].

Definition changed_segment_arguments : Arguments :=
  [ ("model_id", VStr "openmmlab/upernet-convnext-small");
    ("batch_size", VInt 16) ].

(** A stage that consumes field [caption] of subset [captions], placed
    after the stage of the scenario that produces field [text] there. *)
Definition caption_consumer : StageDescriptor :=
  scenario_stage "D" [("captions", [mkField "caption" TString])] [] [].

Definition caption_mismatch_graph : PipelineGraph :=
  linear_graph (scenario ++ [caption_consumer]).

(** A stage that consumes field [caption] (not produced upstream) and
    field [text] as an integer (produced upstream as a string). *)
Definition mixed_consumer : StageDescriptor :=
  scenario_stage "E" [("captions", [mkField "caption" TString;
                                    mkField "text" TInteger])] [] [].

Definition mixed_mismatch_graph : PipelineGraph :=
  linear_graph (scenario ++ [mixed_consumer]).

(** A stage that consumes a subset, listing no field of it, that no
    upstream provides. *)
Definition bare_consumer : StageDescriptor :=
  scenario_stage "F" [("captions_v2", [])] [] [].

Definition bare_mismatch_graph : PipelineGraph :=
  linear_graph (scenario ++ [bare_consumer]).

(** ** Structural subsets, stated on the schemas themselves *)

(** [first_subset available sub fs]: the first entry of [available] named
    [sub] lists the fields [fs]. *)
Definition first_subset (available : Schema) (sub : string)
           (fs : list Field) : Prop :=
  exists before after,
    available = before ++ (sub, fs) :: after
    /\ ~ In sub (subset_names before).

(** [first_field fs n t]: the first field of [fs] named [n] has type [t]. *)
Definition first_field (fs : list Field) (n : string) (t : FieldType) : Prop :=
  exists before after,
    fs = before ++ mkField n t :: after
    /\ ~ In n (map field_name before).

(** [offers available sub n t]: the subset [sub] of [available] has a
    field [n], of type [t]. *)
Definition offers (available : Schema) (sub n : string) (t : FieldType)
  : Prop :=
  exists fs, first_subset available sub fs /\ first_field fs n t.

(** [required] is a structural subset of [available]: each of its subset
    names exists there, and each of its fields exists in that subset with
    the identical type. *)
Definition structural_subset (required available : Schema) : Prop :=
  forall sub fs,
    In (sub, fs) required ->
    In sub (subset_names available)
    /\ forall f, In f fs ->
                 offers available sub (field_name f) (field_type f).

(** ** The environment check of the Python version *)

(** An element of a Python tuple, as far as [sys.version_info] and the
    bounds it is compared with need: an integer or a string. *)
Inductive PyVal : Type :=
| PInt (z : Z)
| PStr (s : string).

(** [a == b]: values of different types are unequal. *)
Definition val_eqb (a b : PyVal) : bool :=
  match a, b with
  | PInt x, PInt y => Z.eqb x y
  | PStr x, PStr y => String.eqb x y
  | _, _ => false
  end.

(** [a < b] and [a >= b]; between an integer and a string Python raises
    [TypeError], here [None]. *)
Definition val_lt (a b : PyVal) : option bool :=
  match a, b with
  | PInt x, PInt y => Some (Z.ltb x y)
  | PStr x, PStr y => Some (String.ltb x y)
  | _, _ => None
  end.

Definition val_ge (a b : PyVal) : option bool :=
  match a, b with
  | PInt x, PInt y => Some (Z.leb y x)
  | PStr x, PStr y => Some (String.leb y x)
  | _, _ => None
  end.

(** Comparison of tuples: the first pair of unequal elements decides; when
    one tuple is a prefix of the other, the lengths decide. *)
Fixpoint tuple_lt (a b : list PyVal) : option bool :=
  match a, b with
  | [], [] => Some false
  | [], _ :: _ => Some true
  | _ :: _, [] => Some false
  | x :: a', y :: b' => if val_eqb x y then tuple_lt a' b' else val_lt x y
  end.

Fixpoint tuple_ge (a b : list PyVal) : option bool :=
  match a, b with
  | [], [] => Some true
  | [], _ :: _ => Some false
  | _ :: _, [] => Some true
  | x :: a', y :: b' => if val_eqb x y then tuple_ge a' b' else val_ge x y
  end.

(** [sys.version_info]: [(major, minor, micro, releaselevel, serial)]. *)
Record VersionInfo := mkVersion {
  major : Z;
  minor : Z;
  micro : Z;
  releaselevel : string;
  serial : Z
}.

Definition version_tuple (v : VersionInfo) : list PyVal :=
  [PInt (major v); PInt (minor v); PInt (micro v);
   PStr (releaselevel v); PInt (serial v)].

Inductive CheckOutcome : Type :=
| Passes
| RaisesException
| RaisesTypeError.

(** [if sys.version_info < (3, 8, 0) or sys.version_info >= upper: raise
    Exception(...)]; [or] evaluates its right operand only when the left
    one is false. *)
Definition version_check (upper : list PyVal) (v : VersionInfo)
  : CheckOutcome :=
  match tuple_lt (version_tuple v) [PInt 3; PInt 8; PInt 0] with
  | None => RaisesTypeError
  | Some true => RaisesException
  | Some false =>
      match tuple_ge (version_tuple v) upper with
      | None => RaisesTypeError
      | Some true => RaisesException
      | Some false => Passes
      end
  end.

(** The check of [src/pipeline.ipynb], upper bound [(3, 12, 0)]. *)
Definition notebook_version_check : VersionInfo -> CheckOutcome :=
  version_check [PInt 3; PInt 12; PInt 0].

(** The check of the earlier notebook, upper bound [(3, 11, 0)]. *)
Definition earlier_version_check : VersionInfo -> CheckOutcome :=
  version_check [PInt 3; PInt 11; PInt 0].

(** ** Auxiliary notions for the properties of the component *)

Fixpoint has_char (c : ascii) (s : string) : bool :=
  match s with
  | EmptyString => false
  | String d t => Ascii.eqb c d || has_char c t
  end.

Definition row_eqb (a b : list string) : bool :=
  if list_eq_dec string_dec a b then true else false.

Fixpoint distinct_rows (l : list (list string)) : bool :=
  match l with
  | [] => true
  | x :: rest => negb (existsb (row_eqb x) rest) && distinct_rows rest
  end.

(** The full frame of prompts, before any truncation. *)
Definition all_rows (lower : string -> string) : list (list string) :=
  map (fun p => [p]) (prompts lower).
(* ================================================================== *)
(** * Properties of the prompt-generation component                    *)
(* ================================================================== *)

Lemma lower_ascii_not_upper (c : ascii) : is_upper (lower_ascii c) = false.
Proof.
  destruct c as [[] [] [] [] [] [] [] []]; vm_compute; reflexivity.
Qed.

Lemma no_upper_ascii_lower (s : string) : no_upper (ascii_lower s) = true.
Proof.
  induction s as [|c t IH]; simpl; [reflexivity|].
  now rewrite lower_ascii_not_upper, IH.
Qed.

Lemma no_upper_append (a b : string) :
  no_upper (a ++ b)%string = no_upper a && no_upper b.
Proof.
  induction a as [|c t IH]; simpl; [reflexivity|].
  now rewrite IH, andb_assoc.
Qed.

Lemma length_product {A B C : Type} (xs : list A) (ys : list B) (zs : list C) :
  length (product xs ys zs) = length xs * length ys * length zs.
Proof.
  unfold product.
  induction xs as [|x xs IH]; simpl; [reflexivity|].
  rewrite length_app, IH.
  assert (E : length (flat_map (fun y => map (fun z => (x, y, z)) zs) ys)
              = length ys * length zs).
  { clear. induction ys as [|y ys IH]; simpl; [reflexivity|].
    now rewrite length_app, length_map, IH. }
  rewrite E. lia.
Qed.

Lemma length_prompts (lower : string -> string) :
  length (prompts lower) = 2340.
Proof.
  unfold prompts, room_tuples. rewrite length_map, length_product.
  reflexivity.
Qed.

Lemma rows_load_None (lower : string -> string) (c : string) :
  rows (frame (load_into lower c None)) = map (fun p => [p]) (prompts lower).
Proof. reflexivity. Qed.

(** C9. For every room, prefix and style, [make_interior_prompt] returns
    the lower-cased prefix, a space, the lower-cased room, a comma and a
    space, the lower-cased style and the words "interior design": the
    result ends in " interior design", holds no upper-case letter (on the
    ASCII lower-casing), and none of the generated prompts starts like the
    "a photo of a ... in the style of ..." template. *)
Theorem make_interior_prompt_template :
  forall (lower : string -> string) (room prefix style : string),
    make_interior_prompt lower room prefix style
    = (lower prefix ++ " " ++ lower room ++ ", " ++ lower style
         ++ " interior design")%string
    /\ no_upper (make_interior_prompt ascii_lower room prefix style) = true
    /\ make_interior_prompt ascii_lower "Bathroom" "comfortable" "art deco"
       = "comfortable bathroom, art deco interior design"
    /\ forallb (fun q => negb (String.prefix "a photo of" q))
               (prompts ascii_lower) = true.
Proof.
  intros lower room prefix style. repeat apply conj.
  - unfold make_interior_prompt. simpl. reflexivity.
  - unfold make_interior_prompt. simpl.
    repeat first [ rewrite no_upper_append
                 | rewrite no_upper_ascii_lower
                 | progress simpl ].
    reflexivity.
  - vm_compute. reflexivity.
  - vm_compute. reflexivity.
Qed.

(** C8. With [n_rows_to_load] equal to 0 the component returns what it
    returns for [None], the full set of 2340 prompts and not zero rows
    (which [head 0] would give); [head] is applied only for a value that is
    neither [None] nor 0.  This holds for the notebook's [load] and for the
    one of [main.py]. *)
Theorem load_zero_is_unlimited :
  forall lower : string -> string,
    load lower (Some 0%Z) = load lower None
    /\ length (rows (frame (load lower (Some 0%Z)))) = 2340
    /\ load_main_py lower (Some 0%Z) = load_main_py lower None
    /\ length (rows (frame (load_main_py lower (Some 0%Z)))) = 2340
    /\ (forall n : option Z,
          truthy n = false <-> n = None \/ n = Some 0%Z)
    /\ (forall z : Z, z <> 0%Z ->
          frame (load lower (Some z)) = head z (frame (load lower None)))
    /\ rows (head 0 (frame (load lower None))) = [].
Proof.
  intros lower. repeat apply conj.
  - reflexivity.
  - change (load lower (Some 0%Z)) with (load_into lower "prompt" None).
    rewrite rows_load_None, length_map. apply length_prompts.
  - reflexivity.
  - change (load_main_py lower (Some 0%Z))
      with (load_into lower "prompts_text" None).
    rewrite rows_load_None, length_map. apply length_prompts.
  - intros n. split.
    + destruct n as [z|]; simpl; [|now left].
      intros E. right. apply negb_false_iff, Z.eqb_eq in E. now subst.
    + intros [E|E]; subst; reflexivity.
  - intros z Hz. unfold load, load_into.
    assert (E : truthy (Some z) = true).
    { simpl. apply negb_true_iff, Z.eqb_neq. exact Hz. }
    rewrite E. reflexivity.
  - reflexivity.
Qed.

(** C10. With [n_rows_to_load] unset, [load] returns 30 x 3 x 26 = 2340
    rows, one per triple of the product of rooms, prefixes and styles, in
    the single column "prompt" and in one partition; since "coastal" and
    "rustic" occur twice among the styles, two rows hold the same prompt. *)
Theorem load_full_product :
  forall lower : string -> string,
    let df := load lower None in
    length rooms = 30 /\ length interior_prefix = 3
    /\ length interior_styles = 26
    /\ length (rows (frame df)) = 30 * 3 * 26
    /\ length (rows (frame df)) = 2340
    /\ rows (frame df)
       = map (fun x => match x with
                       | (r, p, s) => [make_interior_prompt lower r p s]
                       end)
             (product rooms interior_prefix interior_styles)
    /\ columns (frame df) = ["prompt"]
    /\ npartitions df = 1
    /\ nth_error interior_styles 5 = Some "coastal"
    /\ nth_error interior_styles 25 = Some "coastal"
    /\ nth_error interior_styles 7 = Some "rustic"
    /\ nth_error interior_styles 23 = Some "rustic"
    /\ nth_error (rows (frame df)) 5 = nth_error (rows (frame df)) 25
    /\ nth_error (rows (frame df)) 7 = nth_error (rows (frame df)) 23
    /\ ~ NoDup (rows (frame df)).
Proof.
  intros lower df.
  assert (L : length (rows (frame df)) = 2340).
  { unfold df, load. rewrite rows_load_None.
    now rewrite length_map, length_prompts. }
  assert (E : nth_error (rows (frame df)) 5 = nth_error (rows (frame df)) 25)
    by reflexivity.
  repeat apply conj; try reflexivity; try exact L.
  intros ND. rewrite NoDup_nth_error in ND.
  specialize (ND 5 25). rewrite L in ND.
  assert (5 = 25) by (apply ND; [lia | exact E]). discriminate.
Qed.

(* ================================================================== *)
(** * Lists, topological order, evaluation along the order             *)
(* ================================================================== *)

(** [stage_at g i as s E]: name the stage at a position that is known to
    be in range. *)
Tactic Notation "stage_at" constr(g) constr(i) "as" ident(s) ident(E) :=
  destruct (nth_error (stages g) i) as [s|] eqn:E;
  [|apply nth_error_None in E; lia].

Lemma mem_In (i : nat) (l : list nat) : mem i l = true <-> In i l.
Proof.
  unfold mem. rewrite existsb_exists. split.
  - intros [x [Hx E]]. apply Nat.eqb_eq in E. now subst.
  - intros Hi. exists i. split; [exact Hi | apply Nat.eqb_refl].
Qed.

Lemma mem_false (i : nat) (l : list nat) : mem i l = false <-> ~ In i l.
Proof.
  rewrite <- mem_In. destruct (mem i l); split; intros; congruence.
Qed.

Lemma ready_true (g : PipelineGraph) (v : list nat) (i : nat) :
  ready g v i = true <->
  ~ In i v /\ forall u, In u (upstreams g i) -> In u v.
Proof.
  unfold ready. rewrite andb_true_iff, negb_true_iff, mem_false, forallb_forall.
  split; intros [A B]; split; try exact A; intros u Hu.
  - apply mem_In. now apply B.
  - apply mem_In. now apply B.
Qed.

Lemma next_ready_some (g : PipelineGraph) (v : list nat) (i : nat) :
  next_ready g v = Some i ->
  i < length (stages g) /\ ready g v i = true.
Proof.
  unfold next_ready. intros E. apply find_some in E. destruct E as [Hin Hr].
  apply in_seq in Hin. split; [lia | exact Hr].
Qed.

Lemma toposort_from_ordered (g : PipelineGraph) (fuel : nat) :
  forall v, ordered g v -> ordered g (toposort_from fuel g v).
Proof.
  induction fuel as [|fuel IH]; intros v Hv; simpl; [exact Hv|].
  destruct (next_ready g v) as [i|] eqn:E; [|exact Hv].
  apply next_ready_some in E. destruct E as [Hi Hr].
  apply ready_true in Hr. destruct Hr as [Hn Hu].
  apply IH. now constructor.
Qed.

Lemma toposort_ordered (g : PipelineGraph) : ordered g (toposort g).
Proof. apply toposort_from_ordered. constructor. Qed.

Lemma ordered_NoDup (g : PipelineGraph) (l : list nat) :
  ordered g l -> NoDup l.
Proof.
  induction 1 as [|l i Hl IH Hi Hn Hu]; [constructor|].
  apply NoDup_app; [exact IH | constructor; [intros []|constructor] |].
  intros x Hx [E|[]]. subst. contradiction.
Qed.

Lemma ordered_bound (g : PipelineGraph) (l : list nat) :
  ordered g l -> forall i, In i l -> i < length (stages g).
Proof.
  induction 1 as [|l i Hl IH Hi Hn Hu]; intros j Hj; [destruct Hj|].
  apply in_app_or in Hj. destruct Hj as [Hj|[E|[]]]; [now apply IH | now subst].
Qed.

Lemma ordered_upstreams (g : PipelineGraph) (l : list nat) :
  ordered g l ->
  forall i u, In i l -> In u (upstreams g i) -> In u l.
Proof.
  induction 1 as [|l i Hl IH Hi Hn Hu]; intros j u Hj Hjv; [destruct Hj|].
  apply in_or_app. left.
  apply in_app_or in Hj. destruct Hj as [Hj|[E|[]]].
  - eapply IH; eassumption.
  - subst. now apply Hu.
Qed.

Lemma acyclic_complete (g : PipelineGraph) :
  acyclic g = true ->
  forall i, i < length (stages g) -> In i (toposort g).
Proof.
  unfold acyclic. intros E i Hi. apply Nat.eqb_eq in E.
  assert (Hincl : incl (seq 0 (length (stages g))) (toposort g)).
  { apply NoDup_length_incl.
    - apply (ordered_NoDup g). apply toposort_ordered.
    - rewrite length_seq. lia.
    - intros x Hx. apply in_seq. split; [lia|]. simpl.
      eapply ordered_bound; [apply toposort_ordered | exact Hx]. }
  apply Hincl. apply in_seq. lia.
Qed.

(** Induction along the edges of an acyclic graph. *)
Lemma dag_ind (g : PipelineGraph) (P : nat -> Prop) :
  acyclic g = true ->
  (forall i, i < length (stages g) ->
             (forall u, In u (upstreams g i) ->
                        u < length (stages g) /\ P u) -> P i) ->
  forall i, i < length (stages g) -> P i.
Proof.
  intros Hac Hstep i Hi.
  assert (Hall : forall l, ordered g l -> forall j, In j l -> P j).
  { induction 1 as [|l k Hl IH Hk Hn Hu]; intros j Hj; [destruct Hj|].
    apply in_app_or in Hj. destruct Hj as [Hj|[E|[]]]; [now apply IH|].
    subst j. apply Hstep; [exact Hk|]. intros u Hu'. split.
    - eapply ordered_bound; [exact Hl | now apply Hu].
    - apply IH. now apply Hu. }
  apply (Hall (toposort g)); [apply toposort_ordered|].
  now apply acyclic_complete.
Qed.

Lemma acyclic_upstream_bound (g : PipelineGraph) (i u : nat) :
  acyclic g = true -> i < length (stages g) -> In u (upstreams g i) ->
  u < length (stages g).
Proof.
  intros Hac Hi Hu.
  eapply ordered_bound; [apply toposort_ordered|].
  eapply ordered_upstreams; [apply toposort_ordered | | exact Hu].
  now apply acyclic_complete.
Qed.

Lemma find_pointwise {A : Type} (p q : A -> bool) (l : list A) :
  (forall x, p x = q x) -> find p l = find q l.
Proof.
  intros E. induction l as [|x l IH]; simpl; [reflexivity|].
  now rewrite E, IH.
Qed.

(** The order depends on the edges and on the number of stages only. *)
Lemma toposort_ext (g g' : PipelineGraph) :
  edges g = edges g' -> length (stages g) = length (stages g') ->
  toposort g = toposort g'.
Proof.
  intros He Hl.
  assert (Hr : forall v i, ready g v i = ready g' v i).
  { intros v i. unfold ready, upstreams. now rewrite He. }
  assert (Hn : forall v, next_ready g v = next_ready g' v).
  { intros v. unfold next_ready. rewrite Hl.
    apply find_pointwise. intros i. apply Hr. }
  assert (Hf : forall fuel v, toposort_from fuel g v = toposort_from fuel g' v).
  { induction fuel as [|fuel IH]; intros v; simpl; [reflexivity|].
    rewrite Hn. destruct (next_ready g' v); [apply IH | reflexivity]. }
  unfold toposort. rewrite Hl. apply Hf.
Qed.

Lemma acyclic_ext (g g' : PipelineGraph) :
  edges g = edges g' -> length (stages g) = length (stages g') ->
  acyclic g = acyclic g'.
Proof.
  intros He Hl. unfold acyclic. now rewrite (toposort_ext g g' He Hl), Hl.
Qed.

Lemma upstreams_ext (g g' : PipelineGraph) (i : nat) :
  edges g = edges g' -> upstreams g i = upstreams g' i.
Proof. intros He. unfold upstreams. now rewrite He. Qed.

Section Evaluation.

Context {A : Type}.
Variable f : StageDescriptor -> list A -> A.
Variable g : PipelineGraph.

Lemma value_of_app (i j : nat) (a : A) (acc : list (nat * A)) :
  value_of i (acc ++ [(j, a)])
  = match value_of i acc with
    | Some v => Some v
    | None => if Nat.eqb i j then Some a else None
    end.
Proof.
  induction acc as [|[k v] acc IH]; simpl; [reflexivity|].
  destruct (Nat.eqb i k); [reflexivity | exact IH].
Qed.

Lemma value_of_none (i : nat) (acc : list (nat * A)) :
  value_of i acc = None <-> ~ In i (map fst acc).
Proof.
  induction acc as [|[k v] acc IH]; simpl; [tauto|].
  destruct (Nat.eqb i k) eqn:E.
  - apply Nat.eqb_eq in E. subst. split; [discriminate | tauto].
  - apply Nat.eqb_neq in E. rewrite IH. intuition congruence.
Qed.

Lemma value_of_some (i : nat) (acc : list (nat * A)) :
  In i (map fst acc) -> exists a, value_of i acc = Some a.
Proof.
  intros Hi. destruct (value_of i acc) as [a|] eqn:E; [now exists a|].
  apply value_of_none in E. contradiction.
Qed.

Lemma values_of_ext (acc acc' : list (nat * A)) (us : list nat) :
  (forall u, In u us -> value_of u acc = value_of u acc') ->
  values_of acc us = values_of acc' us.
Proof.
  intros E. unfold values_of.
  induction us as [|u us IH]; simpl; [reflexivity|].
  rewrite (E u) by now left. f_equal. apply IH.
  intros v Hv. apply E. now right.
Qed.

Lemma values_of_In (acc : list (nat * A)) (us : list nat) (a : A) :
  In a (values_of acc us) ->
  exists u, In u us /\ value_of u acc = Some a.
Proof.
  unfold values_of. rewrite in_flat_map. intros [u [Hu Ha]].
  exists u. split; [exact Hu|].
  destruct (value_of u acc) as [b|]; [|destruct Ha].
  destruct Ha as [E|[]]. now subst.
Qed.

Lemma eval_along_snoc (l : list nat) (i : nat) :
  eval_along f g (l ++ [i]) [] = eval_step f g (eval_along f g l []) i.
Proof. unfold eval_along. now rewrite fold_left_app. Qed.

Lemma eval_ordered (l : list nat) :
  ordered g l ->
  map fst (eval_along f g l []) = l
  /\ forall i s, In i l -> nth_error (stages g) i = Some s ->
       value_of i (eval_along f g l [])
       = Some (f s (values_of (eval_along f g l []) (upstreams g i))).
Proof.
  induction 1 as [|l k Hl [IHfst IHval] Hk Hn Hu].
  - split; [reflexivity | intros i s []].
  - rewrite eval_along_snoc. unfold eval_step.
    stage_at g k as sk Ek.
    set (acc := eval_along f g l []) in *.
    assert (Hstable : forall j, In j l ->
              value_of j (acc ++ [(k, f sk (values_of acc (upstreams g k)))])
              = value_of j acc).
    { intros j Hj. rewrite value_of_app.
      destruct (value_of_some j acc) as [a Ea]; [now rewrite IHfst|].
      now rewrite Ea. }
    split.
    + rewrite map_app, IHfst. reflexivity.
    + intros i s Hi Es.
      assert (Hups : forall j, In j (l ++ [k]) ->
                values_of (acc ++ [(k, f sk (values_of acc (upstreams g k)))])
                          (upstreams g j)
                = values_of acc (upstreams g j)).
      { intros j Hj. apply values_of_ext. intros u Hu'. apply Hstable.
        apply in_app_or in Hj. destruct Hj as [Hj|[E|[]]].
        - eapply ordered_upstreams; eassumption.
        - subst j. now apply Hu. }
      rewrite (Hups i Hi).
      apply in_app_or in Hi. destruct Hi as [Hi|[E|[]]].
      * rewrite (Hstable i Hi). now apply IHval.
      * subst i. rewrite value_of_app.
        assert (En : value_of k acc = None)
          by (apply value_of_none; now rewrite IHfst).
        rewrite En, Nat.eqb_refl. congruence.
Qed.

Lemma evaluate_order : map fst (evaluate f g) = toposort g.
Proof. apply eval_ordered. apply toposort_ordered. Qed.

(** In an acyclic graph every stage has a value, and that value is [f]
    of the stage and of the values of its upstreams. *)
Lemma evaluate_equation (i : nat) (s : StageDescriptor) :
  acyclic g = true -> nth_error (stages g) i = Some s ->
  value_of i (evaluate f g)
  = Some (f s (values_of (evaluate f g) (upstreams g i))).
Proof.
  intros Hac Es.
  apply (proj2 (eval_ordered (toposort g) (toposort_ordered g))); [|exact Es].
  apply acyclic_complete; [exact Hac|].
  apply nth_error_Some. congruence.
Qed.

Lemma evaluate_defined (i : nat) :
  acyclic g = true -> i < length (stages g) ->
  exists a, value_of i (evaluate f g) = Some a.
Proof.
  intros Hac Hi. apply value_of_some. rewrite evaluate_order.
  now apply acyclic_complete.
Qed.

Lemma evaluate_indices (i : nat) :
  In i (map fst (evaluate f g)) -> i < length (stages g).
Proof.
  rewrite evaluate_order. apply ordered_bound. apply toposort_ordered.
Qed.

End Evaluation.

(** Evaluating a pair of values and projecting is evaluating the
    projection. *)
Lemma evaluate_project {A B : Type}
      (f : StageDescriptor -> list A -> A)
      (f' : StageDescriptor -> list B -> B) (h : A -> B)
      (g : PipelineGraph) :
  (forall s l, h (f s l) = f' s (map h l)) ->
  evaluate f' g = map (fun e => (fst e, h (snd e))) (evaluate f g).
Proof.
  intros Hh. unfold evaluate.
  set (p := fun e : nat * A => (fst e, h (snd e))).
  assert (Hv : forall i acc, value_of i (map p acc)
                             = option_map h (value_of i acc)).
  { intros i acc. induction acc as [|[k v] acc IH]; simpl; [reflexivity|].
    destruct (Nat.eqb i k); [reflexivity | exact IH]. }
  assert (Hvs : forall acc us, values_of (map p acc) us
                               = map h (values_of acc us)).
  { intros acc us. unfold values_of.
    induction us as [|u us IH]; simpl; [reflexivity|].
    rewrite map_app, IH, Hv.
    destruct (value_of u acc); reflexivity. }
  assert (Hfold : forall l acc,
             fold_left (eval_step f' g) l (map p acc)
             = map p (fold_left (eval_step f g) l acc)).
  { induction l as [|i l IH]; intros acc; simpl; [reflexivity|].
    rewrite <- IH. f_equal. unfold eval_step.
    destruct (nth_error (stages g) i) as [s|]; [|reflexivity].
    rewrite map_app. simpl. f_equal. unfold p at 2. simpl.
    now rewrite Hh, Hvs. }
  apply (Hfold (toposort g) []).
Qed.

Lemma value_of_map {A B : Type} (h : A -> B) (i : nat) (acc : list (nat * A)) :
  value_of i (map (fun e => (fst e, h (snd e))) acc)
  = option_map h (value_of i acc).
Proof.
  induction acc as [|[k v] acc IH]; simpl; [reflexivity|].
  destruct (Nat.eqb i k); [reflexivity | exact IH].
Qed.

Lemma nth_error_update_other {A : Type} (f : A -> A) (l : list A) (i j : nat) :
  i <> j -> nth_error (update i f l) j = nth_error l j.
Proof.
  revert i j. induction l as [|x l IH]; intros [|i] [|j] Hij; simpl;
    try reflexivity; try congruence.
  apply IH. congruence.
Qed.

Lemma nth_error_update_same {A : Type} (f : A -> A) (l : list A) (i : nat) (x : A) :
  nth_error l i = Some x -> nth_error (update i f l) i = Some (f x).
Proof.
  revert i. induction l as [|y l IH]; intros [|i] E; simpl in *;
    try discriminate.
  - congruence.
  - now apply IH.
Qed.

Lemma length_update {A : Type} (f : A -> A) (l : list A) (i : nat) :
  length (update i f l) = length l.
Proof.
  revert i. induction l as [|y l IH]; intros [|i]; simpl; try reflexivity.
  now rewrite IH.
Qed.

Lemma same_configuration_iff (c : ExecutableRef * Arguments)
      (s : StageDescriptor) :
  same_configuration c s = true <-> c = configuration s.
Proof.
  unfold same_configuration, configuration. destruct c as [r a]. simpl.
  destruct (ExecutableRef_eq_dec r (executable_ref s)) as [E1|N1];
    [destruct (Arguments_eq_dec a (canonicalize (resolved s))) as [E2|N2]|];
    split; intros X; try discriminate; try congruence; reflexivity.
Qed.

Lemma same_configuration_ext (c : ExecutableRef * Arguments)
      (s s' : StageDescriptor) :
  configuration s = configuration s' ->
  same_configuration c s = same_configuration c s'.
Proof.
  intros E. destruct (same_configuration c s) eqn:X.
  - apply same_configuration_iff in X. symmetry.
    apply same_configuration_iff. congruence.
  - destruct (same_configuration c s') eqn:Y; [|reflexivity].
    apply same_configuration_iff in Y.
    assert (Z : same_configuration c s = true)
      by (apply same_configuration_iff; congruence).
    congruence.
Qed.

Lemma reaches_upstream (g : PipelineGraph) (a b : nat) :
  reaches g a b -> a <> b -> exists u, In u (upstreams g b) /\ reaches g a u.
Proof.
  intros R N. destruct R as [|u b R Hu]; [congruence|]. now exists u.
Qed.

Section Keys.

Context {K : Type} {H : Hasher K}.

Lemma insert_key_perm (k : K) (l : list K) :
  Permutation (insert_key k l) (k :: l).
Proof.
  induction l as [|x l IH]; simpl; [reflexivity|].
  destruct (key_leb k x); [reflexivity|].
  rewrite IH. apply perm_swap.
Qed.

Lemma sort_keys_perm (l : list K) : Permutation (sort_keys l) l.
Proof.
  induction l as [|x l IH]; simpl; [reflexivity|].
  unfold sort_keys in *. simpl. rewrite insert_key_perm. now constructor.
Qed.

Lemma annotate_keys (g : PipelineGraph) (l : list (nat * K)) (i : nat) :
  (forall e, In e l -> fst e < length (stages g)) ->
  key_of (flat_map (annotate g) l) i = value_of i l.
Proof.
  unfold key_of. induction l as [|[j k] l IH]; intros Hb; simpl;
    [reflexivity|].
  assert (Hj : j < length (stages g)) by (apply (Hb (j, k)); now left).
  unfold annotate at 1. simpl.
  stage_at g j as s Es.
  simpl. rewrite (Nat.eqb_sym j i).
  destruct (Nat.eqb i j); [reflexivity|].
  apply IH. intros e He. apply Hb. now right.
Qed.

Lemma cache_keys_bounded (g : PipelineGraph) (e : nat * K) :
  In e (cache_keys g) -> fst e < length (stages g).
Proof.
  intros He. apply (evaluate_indices stage_key g). now apply in_map.
Qed.

(** The key recorded in the manifest is the key evaluated for the stage. *)
Lemma key_of_compile (g : PipelineGraph) (i : nat) :
  key_of (compile g) i = value_of i (cache_keys g).
Proof. apply annotate_keys. apply cache_keys_bounded. Qed.

(** The cache key formula, on the compiled manifest. *)
Lemma key_of_equation (g : PipelineGraph) (i : nat) (s : StageDescriptor) :
  acyclic g = true -> nth_error (stages g) i = Some s ->
  key_of (compile g) i
  = Some (stage_key s (values_of (cache_keys g) (upstreams g i))).
Proof.
  intros Hac Es. rewrite key_of_compile.
  now apply (evaluate_equation stage_key g).
Qed.

Lemma stage_key_configuration (s s' : StageDescriptor) (ks : list K) :
  configuration s = configuration s' -> stage_key s ks = stage_key s' ks.
Proof.
  unfold configuration, stage_key. intros E. injection E as E1 E2.
  now rewrite E1, E2.
Qed.

(** Two declarations of a pipeline with the same edges agree on the key
    of every stage of a set [Q] that is closed under upstreams and on
    which the configurations agree. *)
Lemma cache_keys_agree (g g' : PipelineGraph) (Q : nat -> Prop) :
  edges g' = edges g ->
  length (stages g') = length (stages g) ->
  acyclic g = true ->
  (forall i u, Q i -> In u (upstreams g i) -> Q u) ->
  (forall i s s', Q i -> nth_error (stages g) i = Some s ->
                  nth_error (stages g') i = Some s' ->
                  configuration s' = configuration s) ->
  forall i, i < length (stages g) -> Q i ->
            value_of i (cache_keys g') = value_of i (cache_keys g).
Proof.
  intros He Hl Hac Hclosed Hconf.
  assert (Hac' : acyclic g' = true) by now rewrite (acyclic_ext g' g).
  apply (dag_ind g (fun i => Q i -> value_of i (cache_keys g')
                                    = value_of i (cache_keys g)) Hac).
  intros i Hi IH HQ.
  stage_at g i as s Es.
  stage_at g' i as s' Es'.
  unfold cache_keys.
  rewrite (evaluate_equation stage_key g i s Hac Es).
  rewrite (evaluate_equation stage_key g' i s' Hac' Es').
  rewrite (upstreams_ext g' g i He).
  rewrite (stage_key_configuration s' s) by (eapply Hconf; eassumption).
  f_equal. f_equal. apply values_of_ext. intros u Hu.
  apply IH; [exact Hu|]. eapply Hclosed; eassumption.
Qed.

End Keys.

Section Counting.

Context {K : Type} {H : Hasher K}.
Hypothesis Hcf : collision_free H.
Variable c : ExecutableRef * Arguments.

Lemma cache_keys_annotated (g : PipelineGraph) :
  cache_keys g
  = map (fun e => (fst e, fst (snd e))) (evaluate (key_and_count c) g).
Proof.
  unfold cache_keys. apply evaluate_project. intros s l. reflexivity.
Qed.

Lemma key_of_annotated (g : PipelineGraph) (i : nat) (k : K) (m : nat) :
  value_of i (evaluate (key_and_count c) g) = Some (k, m) ->
  value_of i (cache_keys g) = Some k.
Proof.
  intros E. rewrite cache_keys_annotated, value_of_map, E. reflexivity.
Qed.

(** Lists of keyed counts whose keys are a permutation of one another,
    where equal keys carry equal counts, have the same total. *)
Lemma sums_agree (ps1 : list (K * nat)) :
  forall ps2,
    Permutation (map fst ps1) (map fst ps2) ->
    (forall k n1 n2, In (k, n1) ps1 -> In (k, n2) ps2 -> n1 = n2) ->
    list_sum (map snd ps1) = list_sum (map snd ps2).
Proof.
  induction ps1 as [|[k n] r IH]; intros ps2 Hp Hfun.
  - simpl in Hp. apply Permutation_nil in Hp.
    destruct ps2; [reflexivity | discriminate].
  - simpl in Hp.
    assert (Hin : In k (map fst ps2))
      by (eapply Permutation_in; [exact Hp | now left]).
    apply in_map_iff in Hin. destruct Hin as [[k' n'] [Ek Hin]].
    simpl in Ek. subst k'.
    apply in_split in Hin. destruct Hin as [a [b E]]. subst ps2.
    assert (En : n = n').
    { apply (Hfun k); [now left | apply in_or_app; right; now left]. }
    subst n'.
    rewrite map_app in Hp. simpl in Hp.
    apply Permutation_cons_app_inv in Hp. rewrite <- map_app in Hp.
    rewrite map_app. simpl. rewrite list_sum_app. simpl.
    rewrite (IH (a ++ b) Hp).
    + rewrite map_app, list_sum_app. lia.
    + intros k0 n1 n2 H1 H2. apply (Hfun k0); [now right|].
      apply in_app_or in H2. apply in_or_app.
      destruct H2 as [H2|H2]; [now left | right; now right].
Qed.

(** Without collisions a cache key determines how often a configuration
    occurs in the unfolding of its stage, in whatever graph the key was
    computed. *)
Lemma key_determines_count (g1 g2 : PipelineGraph) :
  acyclic g1 = true -> acyclic g2 = true ->
  forall i, i < length (stages g1) ->
  forall j k m1 m2,
    value_of i (evaluate (key_and_count c) g1) = Some (k, m1) ->
    value_of j (evaluate (key_and_count c) g2) = Some (k, m2) ->
    m1 = m2.
Proof.
  intros Hac1 Hac2.
  apply (dag_ind g1 (fun i => forall j k m1 m2,
    value_of i (evaluate (key_and_count c) g1) = Some (k, m1) ->
    value_of j (evaluate (key_and_count c) g2) = Some (k, m2) ->
    m1 = m2) Hac1).
  intros i Hi IH j k m1 m2 E1 E2.
  assert (Hj : j < length (stages g2)).
  { apply (evaluate_indices (key_and_count c) g2).
    destruct (value_of j (evaluate (key_and_count c) g2)) eqn:X;
      [|discriminate].
    destruct (in_dec Nat.eq_dec j
                (map fst (evaluate (key_and_count c) g2))) as [Y|Y];
      [exact Y|].
    apply value_of_none in Y. congruence. }
  stage_at g1 i as s1 Es1.
  stage_at g2 j as s2 Es2.
  rewrite (evaluate_equation (key_and_count c) g1 i s1 Hac1 Es1) in E1.
  rewrite (evaluate_equation (key_and_count c) g2 j s2 Hac2 Es2) in E2.
  set (ps1 := values_of (evaluate (key_and_count c) g1) (upstreams g1 i)) in *.
  set (ps2 := values_of (evaluate (key_and_count c) g2) (upstreams g2 j)) in *.
  unfold key_and_count in E1, E2.
  injection E1 as Ek1 Em1. injection E2 as Ek2 Em2.
  assert (Ekey : stage_key s1 (map fst ps1) = stage_key s2 (map fst ps2))
    by congruence.
  unfold stage_key in Ekey. apply Hcf in Ekey.
  destruct Ekey as [Er [Ea Es]].
  assert (Hperm : Permutation (map fst ps1) (map fst ps2)).
  { rewrite <- (sort_keys_perm (map fst ps1)), Es. apply sort_keys_perm. }
  assert (Hconf : configuration s1 = configuration s2)
    by (unfold configuration; congruence).
  rewrite <- Em1, <- Em2. unfold occurrences.
  rewrite (same_configuration_ext c s1 s2 Hconf). f_equal.
  apply sums_agree; [exact Hperm|].
  intros k0 n1 n2 H1 H2.
  apply values_of_In in H1. destruct H1 as [u [Hu Eu]].
  apply values_of_In in H2. destruct H2 as [v [Hv Ev]].
  exact (proj2 (IH u Hu) v k0 n1 n2 Eu Ev).
Qed.

(** Pointwise smaller counts add up to a smaller total, strictly so when
    one of them is strictly smaller. *)
Lemma counts_decrease (acc1 acc2 : list (nat * (K * nat))) (R : nat -> Prop)
      (us : list nat) :
  (forall u, In u us ->
     exists v1 v2, value_of u acc1 = Some v1 /\ value_of u acc2 = Some v2
                   /\ snd v2 <= snd v1 /\ (R u -> snd v2 < snd v1)) ->
  list_sum (map snd (values_of acc2 us))
  <= list_sum (map snd (values_of acc1 us))
  /\ ((exists u, In u us /\ R u) ->
      list_sum (map snd (values_of acc2 us))
      < list_sum (map snd (values_of acc1 us))).
Proof.
  unfold values_of.
  induction us as [|u us IH]; intros Hall; simpl.
  - split; [lia | intros [u [[] _]]].
  - destruct (Hall u (or_introl eq_refl)) as [v1 [v2 [E1 [E2 [Hle Hlt]]]]].
    rewrite E1, E2. simpl.
    destruct IH as [IHle IHlt]; [intros w Hw; apply Hall; now right|].
    split; [lia|].
    intros [w [[E|Hw] Rw]].
    + subst w. specialize (Hlt Rw). lia.
    + assert (X : exists u0, In u0 us /\ R u0) by now exists w.
      specialize (IHlt X). lia.
Qed.

End Counting.

Section Reconfigure.

Context {K : Type} {H : Hasher K}.
Variable g : PipelineGraph.
Variable S : nat.
Variable a' : Arguments.
Hypothesis Hac : acyclic g = true.

Lemma with_arguments_acyclic : acyclic (with_arguments g S a') = true.
Proof.
  rewrite (acyclic_ext (with_arguments g S a') g); [exact Hac | reflexivity |].
  apply length_update.
Qed.

(** Stages that [S] does not reach keep their cache key. *)
Lemma with_arguments_frame (X : nat) :
  X < length (stages g) -> ~ reaches g S X ->
  key_of (compile (with_arguments g S a')) X = key_of (compile g) X.
Proof.
  intros HX HnR. rewrite !key_of_compile.
  apply (cache_keys_agree g (with_arguments g S a')
                          (fun X => ~ reaches g S X));
    try assumption; try reflexivity.
  - apply length_update.
  - intros i u Hi Hu R. apply Hi. now apply (reaches_step g S u i).
  - intros i s s' Hi Es Es'. simpl in Es'.
    rewrite nth_error_update_other in Es'.
    + congruence.
    + intros E. subst. apply Hi. constructor.
Qed.

Variable sS : StageDescriptor.
Hypothesis HS : nth_error (stages g) S = Some sS.
Hypothesis Hne : canonicalize (resolved (with_supplied sS a'))
                 <> canonicalize (resolved sS).

(** The old configuration of [S] occurs less often in the unfolding of a
    stage once [S] is reconfigured, strictly so for the stages [S]
    reaches. *)
Lemma with_arguments_count (X : nat) :
  X < length (stages g) ->
  forall k1 m1 k2 m2,
    value_of X (evaluate (key_and_count (configuration sS)) g)
    = Some (k1, m1) ->
    value_of X (evaluate (key_and_count (configuration sS))
                         (with_arguments g S a'))
    = Some (k2, m2) ->
    m2 <= m1 /\ (reaches g S X -> m2 < m1).
Proof.
  set (c := configuration sS).
  set (g' := with_arguments g S a').
  assert (Hac' : acyclic g' = true) by apply with_arguments_acyclic.
  assert (Hlen : length (stages g') = length (stages g))
    by apply length_update.
  revert X.
  apply (dag_ind g (fun X => forall k1 m1 k2 m2,
    value_of X (evaluate (key_and_count c) g) = Some (k1, m1) ->
    value_of X (evaluate (key_and_count c) g') = Some (k2, m2) ->
    m2 <= m1 /\ (reaches g S X -> m2 < m1)) Hac).
  intros X HX IH k1 m1 k2 m2 E1 E2.
  stage_at g X as s Es.
  stage_at g' X as s' Es'.
  rewrite (evaluate_equation (key_and_count c) g X s Hac Es) in E1.
  rewrite (evaluate_equation (key_and_count c) g' X s' Hac' Es') in E2.
  change (upstreams g' X) with (upstreams g X) in E2.
  assert (Hsum := counts_decrease
                    (evaluate (key_and_count c) g)
                    (evaluate (key_and_count c) g')
                    (reaches g S) (upstreams g X)).
  destruct Hsum as [Hle Hlt].
  { intros u Hu. destruct (IH u Hu) as [Hub IHu].
    destruct (evaluate_defined (key_and_count c) g u Hac Hub) as [[ka ma] Ea].
    destruct (evaluate_defined (key_and_count c) g' u Hac') as [[kb mb] Eb];
      [lia|].
    exists (ka, ma), (kb, mb). repeat split; try assumption;
      apply (IHu ka ma kb mb Ea Eb). }
  set (ps1 := values_of (evaluate (key_and_count c) g) (upstreams g X)) in *.
  set (ps2 := values_of (evaluate (key_and_count c) g') (upstreams g X)) in *.
  unfold key_and_count in E1, E2.
  injection E1 as _ Em1. injection E2 as _ Em2.
  rewrite <- Em1, <- Em2. unfold occurrences.
  destruct (Nat.eq_dec S X) as [E|N].
  - subst X. simpl in Es'.
    rewrite (nth_error_update_same _ _ _ _ HS) in Es'.
    assert (Es1 : s = sS) by congruence. subst s.
    injection Es' as Es'. subst s'.
    assert (T : same_configuration c sS = true)
      by (apply same_configuration_iff; reflexivity).
    assert (F : same_configuration c (with_supplied sS a') = false).
    { destruct (same_configuration c (with_supplied sS a')) eqn:Y;
        [|reflexivity].
      apply same_configuration_iff in Y. unfold c, configuration in Y.
      injection Y as Y. symmetry in Y. contradiction. }
    rewrite T, F. cbv iota. split; [lia | intros _; lia].
  - simpl in Es'. rewrite (nth_error_update_other _ _ _ _ N) in Es'.
    assert (Ess : s' = s) by congruence. subst s'.
    destruct (same_configuration c s); cbv iota.
    all: split; [lia|]; intros R.
    all: destruct (reaches_upstream g S X R N) as [u [Hu Ru]].
    all: assert (Y : exists u0, In u0 (upstreams g X) /\ reaches g S u0)
      by now exists u.
    all: specialize (Hlt Y); lia.
Qed.

(** Without collisions, every stage that [S] reaches gets a new key. *)
Lemma with_arguments_change (X : nat) :
  collision_free H ->
  X < length (stages g) -> reaches g S X ->
  key_of (compile (with_arguments g S a')) X <> key_of (compile g) X.
Proof.
  intros Hcf HX R. rewrite !key_of_compile.
  set (c := configuration sS).
  assert (Hac' : acyclic (with_arguments g S a') = true)
    by apply with_arguments_acyclic.
  destruct (evaluate_defined (key_and_count c) g X Hac HX) as [[k1 m1] E1].
  destruct (evaluate_defined (key_and_count c) (with_arguments g S a') X Hac')
    as [[k2 m2] E2]; [simpl; rewrite length_update; exact HX|].
  rewrite (key_of_annotated c g X k1 m1 E1).
  rewrite (key_of_annotated c _ X k2 m2 E2).
  intros E. injection E as E. subst k2.
  destruct (with_arguments_count X HX k1 m1 k1 m2 E1 E2) as [_ Hlt].
  specialize (Hlt R).
  assert (m1 = m2)
    by exact (key_determines_count Hcf c g (with_arguments g S a')
                Hac Hac' X HX X k1 m1 m2 E1 E2).
  lia.
Qed.

End Reconfigure.

Lemma tree_hasher_collision_free : collision_free tree_hasher.
Proof.
  intros r a ks r' a' ks' E. simpl in E. injection E as E1 E2 E3. now subst.
Qed.

(* ================================================================== *)
(** * Graphs that were only appended to, and linear chains             *)
(* ================================================================== *)

Lemma find_first {A : Type} (p : A -> bool) (l1 l2 : list A) (x : A) :
  (forall y, In y l1 -> p y = false) -> p x = true ->
  find p (l1 ++ x :: l2) = Some x.
Proof.
  intros Hf Hx. induction l1 as [|y l1 IH]; simpl.
  - now rewrite Hx.
  - rewrite (Hf y) by now left. apply IH. intros z Hz. apply Hf. now right.
Qed.

Lemma upstreams_edge (g : PipelineGraph) (u i : nat) :
  In u (upstreams g i) <-> In (u, i) (edges g).
Proof.
  unfold upstreams. rewrite in_map_iff. split.
  - intros [[a b] [E Hin]]. simpl in E. subst a.
    apply filter_In in Hin. destruct Hin as [Hin Eb]. simpl in Eb.
    apply Nat.eqb_eq in Eb. now subst.
  - intros Hin. exists (u, i). split; [reflexivity|].
    apply filter_In. split; [exact Hin | apply Nat.eqb_refl].
Qed.

Lemma next_ready_forward (g : PipelineGraph) (k : nat) :
  forward g -> k < length (stages g) ->
  next_ready g (seq 0 k) = Some k.
Proof.
  intros Hf Hk. unfold next_ready.
  replace (length (stages g)) with (k + S (length (stages g) - S k)) by lia.
  rewrite seq_app. simpl.
  apply find_first.
  - intros y Hy. unfold ready.
    assert (E : mem y (seq 0 k) = true) by now apply mem_In.
    now rewrite E.
  - apply ready_true. split.
    + rewrite in_seq. lia.
    + intros u Hu. apply upstreams_edge in Hu. apply Hf in Hu.
      apply in_seq. lia.
Qed.

Lemma toposort_from_forward (g : PipelineGraph) (fuel : nat) :
  forward g ->
  forall k, k + fuel = length (stages g) ->
            toposort_from fuel g (seq 0 k) = seq 0 (length (stages g)).
Proof.
  intros Hf. induction fuel as [|fuel IH]; intros k Hk; simpl.
  - f_equal. lia.
  - rewrite next_ready_forward by (try assumption; lia).
    rewrite <- seq_S. apply IH. lia.
Qed.

(** The topological order of an append-only graph is its declaration
    order. *)
Lemma toposort_forward (g : PipelineGraph) :
  forward g -> toposort g = seq 0 (length (stages g)).
Proof.
  intros Hf. unfold toposort.
  apply (toposort_from_forward g (length (stages g)) Hf 0). reflexivity.
Qed.

Lemma acyclic_forward (g : PipelineGraph) : forward g -> acyclic g = true.
Proof.
  intros Hf. unfold acyclic. rewrite (toposort_forward g Hf), length_seq.
  apply Nat.eqb_refl.
Qed.

Lemma forward_linear (ss : list StageDescriptor) : forward (linear_graph ss).
Proof.
  intros u d Hin. simpl in Hin. apply in_map_iff in Hin.
  destruct Hin as [k [E _]]. injection E as E1 E2. lia.
Qed.

Lemma successor_edges (i a m : nat) :
  map fst (filter (fun e => Nat.eqb (snd e) i)
                  (map (fun k => (k, S k)) (seq a m)))
  = match i with
    | O => []
    | S j => if Nat.leb a j && Nat.ltb j (a + m) then [j] else []
    end.
Proof.
  revert a. induction m as [|m IH]; intros a.
  - simpl. destruct i as [|j]; [reflexivity|].
    replace (a + 0) with a by lia.
    destruct (Nat.leb a j) eqn:E1; [|reflexivity].
    destruct (Nat.ltb j a) eqn:E2; [|reflexivity].
    apply Nat.leb_le in E1. apply Nat.ltb_lt in E2. lia.
  - change (seq a (S m)) with (a :: seq (S a) m).
    cbn [map filter snd].
    destruct (Nat.eqb (S a) i) eqn:E.
    + cbn [map fst]. rewrite IH. apply Nat.eqb_eq in E. subst i.
      assert (X : Nat.leb (S a) a = false) by (apply Nat.leb_gt; lia).
      assert (Y : Nat.leb a a = true) by (apply Nat.leb_le; lia).
      assert (Z : Nat.ltb a (a + S m) = true) by (apply Nat.ltb_lt; lia).
      now rewrite X, Y, Z.
    + rewrite IH. apply Nat.eqb_neq in E.
      destruct i as [|j]; [reflexivity|].
      replace (S a + m) with (a + S m) by lia.
      destruct (Nat.leb (S a) j) eqn:E1.
      * apply Nat.leb_le in E1.
        assert (Y : Nat.leb a j = true) by (apply Nat.leb_le; lia).
        now rewrite Y.
      * apply Nat.leb_gt in E1.
        destruct (Nat.leb a j) eqn:Y; [|reflexivity].
        apply Nat.leb_le in Y. lia.
Qed.

Lemma upstreams_linear (ss : list StageDescriptor) (i : nat) :
  upstreams (linear_graph ss) i
  = match i with
    | O => []
    | S j => if Nat.ltb (S j) (length ss) then [j] else []
    end.
Proof.
  unfold upstreams. simpl. rewrite successor_edges.
  destruct i as [|j]; [reflexivity|]. simpl.
  destruct (Nat.ltb j (length ss - 1)) eqn:E1;
    destruct (Nat.ltb (S j) (length ss)) eqn:E2; try reflexivity.
  - apply Nat.ltb_lt in E1. apply Nat.ltb_ge in E2. lia.
  - apply Nat.ltb_ge in E1. apply Nat.ltb_lt in E2. lia.
Qed.

Lemma available_linear (ss : list StageDescriptor) (j : nat)
      (p : StageDescriptor) :
  S j < length ss -> nth_error ss j = Some p ->
  upstream_produces (linear_graph ss) (S j) = [produces p]
  /\ available_to (linear_graph ss) (S j) = produces p.
Proof.
  intros Hj Ep.
  assert (E : upstream_produces (linear_graph ss) (S j) = [produces p]).
  { unfold upstream_produces. rewrite upstreams_linear.
    apply Nat.ltb_lt in Hj. rewrite Hj. simpl. now rewrite Ep. }
  split; [exact E|].
  unfold available_to, union_of. rewrite E. simpl. apply app_nil_r.
Qed.

Lemma linear_graph_snoc (pre : list StageDescriptor) (p s : StageDescriptor) :
  mkGraph ((pre ++ [p]) ++ [s])
          (edges (linear_graph (pre ++ [p]))
           ++ map (fun u => (u, length (pre ++ [p]))) [length pre])
          false
  = linear_graph ((pre ++ [p]) ++ [s]).
Proof.
  unfold linear_graph. f_equal. simpl.
  rewrite !length_app. simpl.
  replace (length pre + 1 - 1) with (length pre) by lia.
  replace (length pre + 1 + 1 - 1) with (S (length pre)) by lia.
  rewrite seq_S, map_app. simpl. repeat f_equal. lia.
Qed.

Lemma add_dependent_linear (pre : list StageDescriptor)
      (p s : StageDescriptor) :
  is_subset (consumes s) (produces p) = true ->
  add_dependent (linear_graph (pre ++ [p])) s [length pre]
  = inr (linear_graph ((pre ++ [p]) ++ [s]), S (length pre)).
Proof.
  intros Hsub. unfold add_dependent.
  change (frozen (linear_graph (pre ++ [p]))) with false. cbv iota.
  change (stages (linear_graph (pre ++ [p]))) with (pre ++ [p]).
  cbv zeta. rewrite linear_graph_snoc.
  rewrite (acyclic_forward _ (forward_linear _)). simpl negb. cbv iota.
  assert (L : length (pre ++ [p]) = S (length pre))
    by (rewrite length_app; simpl; lia).
  rewrite L.
  destruct (available_linear ((pre ++ [p]) ++ [s]) (length pre) p) as [_ Ea].
  - rewrite !length_app. simpl. lia.
  - rewrite <- app_assoc. rewrite nth_error_app2 by lia.
    now rewrite Nat.sub_diag.
  - rewrite Ea, Hsub. reflexivity.
Qed.

Lemma chain_from_linear (rest : list StageDescriptor) :
  forall pre p,
    linked p rest = true ->
    chain_from (linear_graph (pre ++ [p])) (length pre) rest
    = inr (linear_graph ((pre ++ [p]) ++ rest)).
Proof.
  induction rest as [|s rest IH]; intros pre p Hl; simpl.
  - now rewrite app_nil_r.
  - simpl in Hl. apply andb_true_iff in Hl. destruct Hl as [Hsub Hl].
    rewrite (add_dependent_linear pre p s Hsub). simpl.
    replace (S (length pre)) with (length (pre ++ [p]))
      by (rewrite length_app; simpl; lia).
    rewrite (IH (pre ++ [p]) s Hl). now rewrite <- !app_assoc.
Qed.

(** A well-formed chain is accepted by the builder, stage after stage. *)
Lemma build_linear_ok (ss : list StageDescriptor) :
  well_formed_chain ss = true -> build_linear ss = inr (linear_graph ss).
Proof.
  destruct ss as [|s rest]; [discriminate|]. intros Hwf.
  unfold well_formed_chain in Hwf.
  apply andb_true_iff in Hwf. destruct Hwf as [Hwf _].
  apply andb_true_iff in Hwf. destruct Hwf as [Hsrc Hl].
  unfold build_linear, add_source. simpl.
  destruct (consumes s); [|discriminate]. simpl.
  exact (chain_from_linear rest [] s Hl).
Qed.

Lemma flat_map_nil {A B : Type} (f : A -> list B) (l : list A) :
  (forall x, In x l -> f x = []) -> flat_map f l = [].
Proof.
  intros E. induction l as [|x l IH]; simpl; [reflexivity|].
  rewrite (E x) by now left. apply IH. intros y Hy. apply E. now right.
Qed.

Lemma combine_seq_In {A : Type} (l : list A) :
  forall a i x,
    In (i, x) (combine (seq a (length l)) l)
    <-> a <= i /\ nth_error l (i - a) = Some x.
Proof.
  induction l as [|y l IH]; intros a i x; simpl.
  - split; [intros [] | intros [_ E]].
    destruct (i - a); discriminate.
  - rewrite IH. split.
    + intros [E|[Hle E]].
      * injection E as E1 E2. subst. split; [lia|].
        now rewrite Nat.sub_diag.
      * split; [lia|].
        replace (i - a) with (S (i - S a)) by lia. exact E.
    + intros [Hle E]. destruct (Nat.eq_dec a i) as [X|X].
      * subst. rewrite Nat.sub_diag in E. simpl in E. left. congruence.
      * right. split; [lia|].
        replace (i - a) with (S (i - S a)) in E by lia. exact E.
Qed.

Lemma indexed_In (g : PipelineGraph) (i : nat) (s : StageDescriptor) :
  In (i, s) (indexed g) <-> nth_error (stages g) i = Some s.
Proof.
  unfold indexed. rewrite combine_seq_In. rewrite Nat.sub_0_r.
  split; [intros [_ E]; exact E | intros E; split; [lia | exact E]].
Qed.

Lemma ambiguous_single (s : Schema) : ambiguous_subsets [s] = [].
Proof.
  simpl. rewrite app_nil_r.
  induction (subset_names s) as [|n l IH]; simpl; [reflexivity | exact IH].
Qed.

Lemma linked_nth (rest : list StageDescriptor) :
  forall p j a b,
    linked p rest = true ->
    nth_error (p :: rest) j = Some a ->
    nth_error (p :: rest) (S j) = Some b ->
    is_subset (consumes b) (produces a) = true.
Proof.
  induction rest as [|s rest IH]; intros p j a b Hl Ea Eb.
  - simpl in Eb. destruct j; discriminate.
  - simpl in Hl. apply andb_true_iff in Hl. destruct Hl as [Hsub Hl].
    destruct j as [|j].
    + simpl in Ea, Eb. congruence.
    + exact (IH s j a b Hl Ea Eb).
Qed.

Lemma validate_linear (ss : list StageDescriptor) :
  well_formed_chain ss = true -> validate (linear_graph ss) = [].
Proof.
  intros Hwf. destruct ss as [|s0 rest]; [discriminate|].
  unfold well_formed_chain in Hwf.
  apply andb_true_iff in Hwf. destruct Hwf as [Hwf Hsound].
  apply andb_true_iff in Hwf. destruct Hwf as [Hsrc Hl].
  rewrite forallb_forall in Hsound.
  set (ss := s0 :: rest) in *.
  unfold validate.
  assert (E1 : cycle_errors (linear_graph ss) = []).
  { unfold cycle_errors.
    now rewrite (acyclic_forward _ (forward_linear ss)). }
  assert (E2 : schema_errors (linear_graph ss) = []).
  { unfold schema_errors. apply flat_map_nil. intros [i s] Hin.
    apply indexed_In in Hin. simpl in Hin. simpl fst. simpl snd.
    unfold stage_schema_errors.
    destruct i as [|j].
    - unfold available_to, upstream_produces.
      rewrite upstreams_linear. simpl.
      simpl in Hin. injection Hin as Hin. subst s.
      destruct (consumes s0); [reflexivity | discriminate].
    - assert (Hj : S j < length ss)
        by (apply nth_error_Some; congruence).
      destruct (nth_error ss j) as [p|] eqn:Ep;
        [|apply nth_error_None in Ep; lia].
      destruct (available_linear ss j p Hj Ep) as [Eu Ea].
      rewrite Eu, Ea, ambiguous_single.
      now rewrite (linked_nth rest s0 j p s Hl Ep Hin). }
  assert (E3 : argument_errors (linear_graph ss) = []).
  { unfold argument_errors. apply flat_map_nil. intros s Hin.
    specialize (Hsound s Hin). unfold stage_sound in Hsound.
    apply andb_true_iff in Hsound. destruct Hsound as [Ha _].
    destruct (argument_problems s); [reflexivity | discriminate]. }
  assert (E4 : resource_errors (linear_graph ss) = []).
  { unfold resource_errors. apply flat_map_nil. intros s Hin.
    specialize (Hsound s Hin). unfold stage_sound in Hsound.
    apply andb_true_iff in Hsound. destruct Hsound as [_ Hr].
    now rewrite Hr. }
  now rewrite E1, E2, E3, E4.
Qed.

Lemma finalize_ok (g : PipelineGraph) :
  validate g = [] -> finalize g = inr (mkGraph (stages g) (edges g) true).
Proof. intros E. unfold finalize. now rewrite E. Qed.

Lemma finalize_inv (g gf : PipelineGraph) :
  finalize g = inr gf ->
  validate g = [] /\ gf = mkGraph (stages g) (edges g) true.
Proof.
  unfold finalize. destruct (validate g); [|discriminate].
  intros E. injection E as E. now subst.
Qed.

Lemma validate_acyclic (g : PipelineGraph) :
  validate g = [] -> acyclic g = true.
Proof.
  unfold validate, cycle_errors. intros E.
  apply app_eq_nil in E. destruct E as [E _].
  destruct (acyclic g); [reflexivity | discriminate].
Qed.

Section Manifest.

Context {K : Type} {H : Hasher K}.

(** What is compiled depends on the stages and the edges only; freezing
    does not change it. *)
Lemma compile_ext (g g' : PipelineGraph) :
  stages g = stages g' -> edges g = edges g' -> compile g = compile g'.
Proof.
  intros Es Ee.
  assert (Hstep : forall acc i,
             eval_step stage_key g acc i = eval_step stage_key g' acc i).
  { intros acc i. unfold eval_step.
    now rewrite Es, (upstreams_ext g g' i Ee). }
  assert (Hfold : forall l acc,
             fold_left (eval_step stage_key g) l acc
             = fold_left (eval_step stage_key g') l acc).
  { induction l as [|i l IH]; intros acc; simpl; [reflexivity|].
    now rewrite Hstep, IH. }
  unfold compile, cache_keys, evaluate.
  rewrite (toposort_ext g g' Ee) by now rewrite Es.
  rewrite Hfold. apply flat_map_ext. intros e. unfold annotate.
  now rewrite Es.
Qed.

Lemma compile_finalized (g gf : PipelineGraph) :
  finalize g = inr gf -> compile gf = compile g.
Proof.
  intros E. apply finalize_inv in E. destruct E as [_ E]. subst gf.
  now apply compile_ext.
Qed.

Lemma annotate_stages (g : PipelineGraph) (l : list (nat * K)) :
  (forall e, In e l -> fst e < length (stages g)) ->
  map exec_stage (flat_map (annotate g) l) = map fst l.
Proof.
  induction l as [|[j k] l IH]; intros Hb; simpl; [reflexivity|].
  assert (Hj : j < length (stages g)) by (apply (Hb (j, k)); now left).
  unfold annotate at 1. simpl.
  stage_at g j as s Es.
  simpl. f_equal. apply IH. intros e He. apply Hb. now right.
Qed.

(** The manifest lists the stages in topological order. *)
Lemma compile_order (g : PipelineGraph) :
  map exec_stage (compile g) = toposort g.
Proof.
  unfold compile. rewrite annotate_stages by apply cache_keys_bounded.
  apply evaluate_order.
Qed.

Lemma skipn_nth_error {A : Type} (l : list A) :
  forall a x, nth_error l a = Some x -> skipn a l = x :: skipn (S a) l.
Proof.
  induction l as [|y l IH]; intros [|a] x E; simpl in *; try discriminate.
  - congruence.
  - now apply IH.
Qed.

Lemma annotate_names (g : PipelineGraph) (l : list (nat * K)) :
  forall a, map fst l = seq a (length l) ->
            a + length l = length (stages g) ->
            map exec_name (flat_map (annotate g) l)
            = map name (skipn a (stages g)).
Proof.
  induction l as [|[j k] l IH]; intros a Hs Hn; simpl in *.
  - rewrite skipn_all2 by lia. reflexivity.
  - injection Hs as Ej Hs. subst j.
    unfold annotate at 1. simpl.
    stage_at g a as s Es.
    rewrite (skipn_nth_error _ _ _ Es).
    cbn [app map exec_name]. f_equal.
    apply IH; [exact Hs | lia].
Qed.

(** In an append-only graph the manifest follows the declaration order. *)
Lemma compile_forward (g : PipelineGraph) :
  forward g ->
  map exec_stage (compile g) = seq 0 (length (stages g))
  /\ map exec_name (compile g) = map name (stages g)
  /\ length (compile g) = length (stages g).
Proof.
  intros Hf.
  assert (E : map exec_stage (compile g) = seq 0 (length (stages g)))
    by (rewrite compile_order; now apply toposort_forward).
  assert (Ek : map fst (cache_keys g) = seq 0 (length (stages g))).
  { unfold cache_keys. rewrite evaluate_order. now apply toposort_forward. }
  assert (El : length (cache_keys g) = length (stages g)).
  { rewrite <- (length_map fst), Ek. apply length_seq. }
  repeat apply conj.
  - exact E.
  - unfold compile. rewrite (annotate_names g (cache_keys g) 0).
    + reflexivity.
    + now rewrite El.
    + now rewrite El.
  - rewrite <- (length_map exec_stage), E. apply length_seq.
Qed.

End Manifest.

Lemma reaches_forward (g : PipelineGraph) (a b : nat) :
  forward g -> reaches g a b -> a <= b.
Proof.
  intros Hf R. induction R as [|u b R IH Hu]; [lia|].
  apply upstreams_edge in Hu. apply Hf in Hu. lia.
Qed.

Lemma reaches_trans (g : PipelineGraph) (a b c : nat) :
  reaches g a b -> reaches g b c -> reaches g a c.
Proof.
  intros R1 R2. induction R2 as [|u c R2 IH Hu]; [exact R1|].
  now apply (reaches_step g a u c).
Qed.

Lemma reaches_bound (g : PipelineGraph) (a b : nat) :
  acyclic g = true -> reaches g a b -> b < length (stages g) ->
  a < length (stages g).
Proof.
  intros Hac R. induction R as [|u b R IH Hu]; intros Hb; [exact Hb|].
  apply IH. eapply acyclic_upstream_bound; eassumption.
Qed.

Lemma exists_or_none {A : Type} (P : A -> Prop) (l : list A) :
  (forall x, In x l -> P x \/ ~ P x) ->
  (exists x, In x l /\ P x) \/ (forall x, In x l -> ~ P x).
Proof.
  induction l as [|y l IH]; intros Hd.
  - right. intros x [].
  - destruct (Hd y (or_introl eq_refl)) as [Py|Ny].
    + left. exists y. split; [now left | exact Py].
    + destruct IH as [[x [Hx Px]]|Hn].
      * intros x Hx. apply Hd. now right.
      * left. exists x. split; [now right | exact Px].
      * right. intros x [E|Hx]; [now subst | now apply Hn].
Qed.

(** Whether a stage is reached from another is decidable in an acyclic
    graph. *)
Lemma reaches_dec (g : PipelineGraph) (a : nat) :
  acyclic g = true ->
  forall b, b < length (stages g) -> reaches g a b \/ ~ reaches g a b.
Proof.
  intros Hac.
  apply (dag_ind g (fun b => reaches g a b \/ ~ reaches g a b) Hac).
  intros b Hb IH.
  destruct (Nat.eq_dec a b) as [E|N]; [left; subst; constructor|].
  destruct (exists_or_none (reaches g a) (upstreams g b)) as [[u [Hu R]]|Hn].
  - intros u Hu. apply IH. exact Hu.
  - left. now apply (reaches_step g a u b).
  - right. intros R. destruct (reaches_upstream g a b R N) as [u [Hu Ru]].
    exact (Hn u Hu Ru).
Qed.

Lemma update_last {A : Type} (f : A -> A) (l : list A) (x : A) :
  update (length l) f (l ++ [x]) = l ++ [f x].
Proof.
  induction l as [|y l IH]; simpl; [reflexivity | now rewrite IH].
Qed.

Lemma with_arguments_linear (pre : list StageDescriptor)
      (final : StageDescriptor) (a' : Arguments) :
  with_arguments (linear_graph (pre ++ [final])) (length pre) a'
  = linear_graph (pre ++ [with_supplied final a']).
Proof.
  unfold with_arguments, linear_graph. simpl.
  rewrite update_last. f_equal. rewrite !length_app. reflexivity.
Qed.

(* ================================================================== *)
(** * Properties of the pipeline core                                  *)
(* ================================================================== *)

(** C6. Every stage of the notebook's pipeline makes a sane resource
    request, whatever the hub contracts and whether a GPU was found: the
    accelerator count is absent or a non-negative integer, a positive count
    comes with an accelerator kind, and count and kind are set together,
    either 1 and "GPU" or both absent. *)
Theorem notebook_resources_sane :
  forall (found : bool) (retrieve download caption segment : Contract),
    Forall (fun s =>
              let r := resources s in
              (accelerator_count r = None
               \/ exists c, accelerator_count r = Some c /\ (0 <= c)%Z)
              /\ (forall c, accelerator_count r = Some c -> (0 < c)%Z ->
                            accelerator_kind r <> None)
              /\ ((accelerator_count r = Some 1%Z
                   /\ accelerator_kind r = Some "GPU")
                  \/ (accelerator_count r = None
                      /\ accelerator_kind r = None))
              /\ resource_sane r = true)
           (notebook_stages found retrieve download caption segment)
    /\ resource_errors
         (linear_graph (notebook_stages found retrieve download caption
                                        segment)) = []
    /\ (detect_accelerator found = (Some 1%Z, Some "GPU")
        \/ detect_accelerator found = (None, None)).
Proof.
  intros found retrieve download caption segment.
  assert (Hnone : forall r, r = no_resources ->
    (accelerator_count r = None
     \/ exists c, accelerator_count r = Some c /\ (0 <= c)%Z)
    /\ (forall c, accelerator_count r = Some c -> (0 < c)%Z ->
                  accelerator_kind r <> None)
    /\ ((accelerator_count r = Some 1%Z /\ accelerator_kind r = Some "GPU")
        \/ (accelerator_count r = None /\ accelerator_kind r = None))
    /\ resource_sane r = true).
  { intros r E. subst r. repeat apply conj.
    - left. reflexivity.
    - intros c E. discriminate.
    - right. split; reflexivity.
    - reflexivity. }
  assert (Hdet : forall r, r = detected_resources found ->
    (accelerator_count r = None
     \/ exists c, accelerator_count r = Some c /\ (0 <= c)%Z)
    /\ (forall c, accelerator_count r = Some c -> (0 < c)%Z ->
                  accelerator_kind r <> None)
    /\ ((accelerator_count r = Some 1%Z /\ accelerator_kind r = Some "GPU")
        \/ (accelerator_count r = None /\ accelerator_kind r = None))
    /\ resource_sane r = true).
  { intros r E. subst r. destruct found; repeat apply conj.
    - right. exists 1%Z. split; [reflexivity | lia].
    - intros c _ _. discriminate.
    - left. split; reflexivity.
    - reflexivity.
    - left. reflexivity.
    - intros c E. discriminate.
    - right. split; reflexivity.
    - reflexivity. }
  repeat apply conj.
  - unfold notebook_stages.
    repeat apply Forall_cons; try apply Forall_nil.
    + apply Hnone. reflexivity.
    + apply Hdet. reflexivity.
    + apply Hnone. reflexivity.
    + apply Hdet. reflexivity.
    + apply Hdet. reflexivity.
  - destruct found; reflexivity.
  - destruct found; [left | right]; reflexivity.
Qed.

(** C1. A well-formed linear chain (a source, then stages that each consume
    from the stage before, as the notebook's prompt, retrieval, download,
    caption and segmentation stages) is accepted by the builder and passes
    validation; its manifest has one stage execution per stage, in
    declaration order; and when the chain is declared again with other
    arguments for the final stage, every earlier stage keeps its cache key,
    while the key of the final stage changes (for a hash without
    collisions and arguments with another canonical form). *)
Theorem linear_pipeline_compiles :
  forall (K : Type) (H : Hasher K)
         (pre : list StageDescriptor) (final : StageDescriptor)
         (a' : Arguments),
    well_formed_chain (pre ++ [final]) = true ->
    well_formed_chain (pre ++ [with_supplied final a']) = true ->
    exists g gf g' gf',
      build_linear (pre ++ [final]) = inr g
      /\ finalize g = inr gf
      /\ build_linear (pre ++ [with_supplied final a']) = inr g'
      /\ finalize g' = inr gf'
      /\ map exec_stage (compile gf) = seq 0 (length (pre ++ [final]))
      /\ map exec_name (compile gf) = map name (pre ++ [final])
      /\ length (compile gf) = length (pre ++ [final])
      /\ (forall i, i < length pre ->
                    key_of (compile gf') i = key_of (compile gf) i)
      /\ (collision_free H ->
          canonicalize (resolved (with_supplied final a'))
          <> canonicalize (resolved final) ->
          key_of (compile gf') (length pre)
          <> key_of (compile gf) (length pre)).
Proof.
  intros K H pre final a' Hwf Hwf'.
  set (g := linear_graph (pre ++ [final])).
  set (g' := linear_graph (pre ++ [with_supplied final a'])).
  assert (Hv := validate_linear _ Hwf).
  assert (Hv' := validate_linear _ Hwf').
  assert (Hfin := finalize_ok _ Hv).
  assert (Hfin' := finalize_ok _ Hv').
  assert (Hac : acyclic g = true) by (apply acyclic_forward, forward_linear).
  assert (Hlast : nth_error (stages g) (length pre) = Some final).
  { simpl. rewrite nth_error_app2 by lia. now rewrite Nat.sub_diag. }
  assert (Hlen : length (stages g) = S (length pre))
    by (simpl; rewrite length_app; simpl; lia).
  exists g, (mkGraph (stages g) (edges g) true),
         g', (mkGraph (stages g') (edges g') true).
  rewrite (compile_finalized g _ Hfin).
  rewrite (compile_finalized g' _ Hfin').
  destruct (compile_forward g (forward_linear _)) as [E1 [E2 E3]].
  repeat apply conj;
    try (now apply build_linear_ok); try assumption.
  - intros i Hi. unfold g'. rewrite <- with_arguments_linear.
    apply with_arguments_frame; [exact Hac | lia |].
    intros R. apply reaches_forward in R; [lia | apply forward_linear].
  - intros Hcf Hne. unfold g'. rewrite <- with_arguments_linear.
    apply (with_arguments_change g (length pre) a' Hac final Hlast Hne);
      [exact Hcf | lia | constructor].
Qed.

Lemma linear_pipeline_compiles_witness :
  let pre := firstn 4 (example_pipeline true) in
  let final := hub_stage "segment_images" example_segment segment_arguments
                         (detected_resources true) in
  let final' := with_supplied final changed_segment_arguments in
  let C := scenario_stage "C" [("images", [mkField "data" TBinary])]
                          [("captions", [mkField "text" TString])]
                          [("batch_size", VInt 8)] in
  let C' := with_supplied C [("batch_size", VInt 16)] in
  (well_formed_chain (pre ++ [final]) = true
   /\ well_formed_chain (pre ++ [final']) = true
   /\ exists g gf g' gf' : PipelineGraph,
        build_linear (example_pipeline true) = inr g
        /\ finalize g = inr gf
        /\ build_linear (pre ++ [final']) = inr g'
        /\ finalize g' = inr gf'
        /\ map exec_stage (@compile TreeKey tree_hasher gf) = [0; 1; 2; 3; 4]
        /\ map exec_name (@compile TreeKey tree_hasher gf)
           = [ "GeneratePromptsComponent"; "retrieve_from_faiss_by_prompt";
               "download_images"; "caption_images"; "segment_images" ]
        /\ (forall i, i < 4 ->
              key_of (@compile TreeKey tree_hasher gf') i
              = key_of (@compile TreeKey tree_hasher gf) i)
        /\ key_of (@compile TreeKey tree_hasher gf') 4
           <> key_of (@compile TreeKey tree_hasher gf) 4)
  /\ (well_formed_chain scenario = true
      /\ well_formed_chain (firstn 3 scenario ++ [C']) = true
      /\ exists g gf g' gf' : PipelineGraph,
           build_linear scenario = inr g
           /\ finalize g = inr gf
           /\ build_linear (firstn 3 scenario ++ [C']) = inr g'
           /\ finalize g' = inr gf'
           /\ map exec_name (@compile TreeKey tree_hasher gf)
              = [ "source"; "A"; "B"; "C" ]
           /\ length (@compile TreeKey tree_hasher gf) = 4
           /\ (forall i, i < 3 ->
                 key_of (@compile TreeKey tree_hasher gf') i
                 = key_of (@compile TreeKey tree_hasher gf) i)
           /\ key_of (@compile TreeKey tree_hasher gf') 3
              <> key_of (@compile TreeKey tree_hasher gf) 3).
Proof.
  intros pre final final' C C'.
  assert (W1 : well_formed_chain (pre ++ [final]) = true)
    by (vm_compute; reflexivity).
  assert (W2 : well_formed_chain (pre ++ [final']) = true)
    by (vm_compute; reflexivity).
  assert (W3 : well_formed_chain (firstn 3 scenario ++ [C]) = true)
    by (vm_compute; reflexivity).
  assert (W4 : well_formed_chain (firstn 3 scenario ++ [C']) = true)
    by (vm_compute; reflexivity).
  split.
  - split; [exact W1|]. split; [exact W2|].
    destruct (linear_pipeline_compiles TreeKey tree_hasher pre final
                changed_segment_arguments W1 W2)
      as [g [gf [g' [gf' [B [F [B' [F' [Eo [En [_ [Hfr Hch]]]]]]]]]]]].
    exists g, gf, g', gf'. repeat apply conj; try assumption.
    apply Hch.
    + apply tree_hasher_collision_free.
    + vm_compute. intros E. discriminate.
  - split; [exact W3|]. split; [exact W4|].
    destruct (linear_pipeline_compiles TreeKey tree_hasher
                (firstn 3 scenario) C [("batch_size", VInt 16)] W3 W4)
      as [g [gf [g' [gf' [B [F [B' [F' [_ [En [El [Hfr Hch]]]]]]]]]]]].
    exists g, gf, g', gf'. repeat apply conj; try assumption.
    apply Hch.
    + apply tree_hasher_collision_free.
    + vm_compute. intros E. discriminate.
Defined.

(** C3. After the arguments of one stage [S] of a valid graph are changed
    (to arguments with another canonical form) and the graph is compiled
    again, the cache key of [S] and of every stage downstream of [S] has
    changed (for a hash without collisions), and the key of every other
    stage, siblings on independent branches among them, is unchanged; so a
    key changes if and only if the stage is [S], the one whose
    configuration changed, or a transitive upstream of it has a changed
    key. *)
Theorem argument_change_invalidates_downstream :
  forall (K : Type) (H : Hasher K) (g : PipelineGraph) (S : nat)
         (sS : StageDescriptor) (a' : Arguments) (gf gf' : PipelineGraph),
    collision_free H ->
    finalize g = inr gf ->
    finalize (with_arguments g S a') = inr gf' ->
    nth_error (stages g) S = Some sS ->
    canonicalize (resolved (with_supplied sS a'))
    <> canonicalize (resolved sS) ->
    (forall X, X < length (stages g) -> reaches g S X ->
               key_of (compile gf') X <> key_of (compile gf) X)
    /\ (forall X, X < length (stages g) -> ~ reaches g S X ->
                  key_of (compile gf') X = key_of (compile gf) X)
    /\ (forall X, X < length (stages g) ->
          (key_of (compile gf') X <> key_of (compile gf) X
           <-> X = S
               \/ exists U, downstream g U X
                            /\ key_of (compile gf') U
                               <> key_of (compile gf) U)).
Proof.
  intros K H g S sS a' gf gf' Hcf F F' HS Hne.
  destruct (finalize_inv g gf F) as [Hv _].
  assert (Hac := validate_acyclic g Hv).
  rewrite (compile_finalized g gf F).
  rewrite (compile_finalized (with_arguments g S a') gf' F').
  assert (HSn : S < length (stages g))
    by (apply nth_error_Some; congruence).
  assert (Hchange : forall X, X < length (stages g) -> reaches g S X ->
            key_of (compile (with_arguments g S a')) X
            <> key_of (compile g) X).
  { intros X HX R.
    now apply (with_arguments_change g S a' Hac sS HS Hne). }
  assert (Hframe : forall X, X < length (stages g) -> ~ reaches g S X ->
            key_of (compile (with_arguments g S a')) X
            = key_of (compile g) X).
  { intros X HX R. now apply with_arguments_frame. }
  repeat apply conj; try assumption.
  intros X HX. split.
  - intros Hd.
    destruct (reaches_dec g S Hac X HX) as [R|NR];
      [|exfalso; apply Hd; now apply Hframe].
    destruct (Nat.eq_dec S X) as [E|N]; [left; now subst|].
    right. exists S. split.
    + destruct (reaches_upstream g S X R N) as [u [Hu Ru]].
      exists u. split; assumption.
    + apply Hchange; [exact HSn | constructor].
  - intros [E|[U [[u [RU Hu]] Hd]]].
    + subst X. apply Hchange; [exact HSn | constructor].
    + assert (Hub : u < length (stages g))
        by (eapply acyclic_upstream_bound; eassumption).
      assert (HU : U < length (stages g))
        by (eapply reaches_bound; eassumption).
      destruct (reaches_dec g S Hac U HU) as [R|NR];
        [|exfalso; apply Hd; now apply Hframe].
      apply Hchange; [exact HX|].
      apply (reaches_step g S u X); [|exact Hu].
      now apply (reaches_trans g S U u).
Qed.

Lemma argument_change_invalidates_downstream_witness :
  let g := fan_out_graph in
  let g' := with_arguments fan_out_graph 1 changed_retrieve_arguments in
  let gf := mkGraph (stages g) (edges g) true in
  let gf' := mkGraph (stages g') (edges g') true in
  finalize g = inr gf /\ finalize g' = inr gf'
  /\ key_of (@compile TreeKey tree_hasher gf') 1
     <> key_of (@compile TreeKey tree_hasher gf) 1
  /\ key_of (@compile TreeKey tree_hasher gf') 3
     <> key_of (@compile TreeKey tree_hasher gf) 3
  /\ key_of (@compile TreeKey tree_hasher gf') 0
     = key_of (@compile TreeKey tree_hasher gf) 0
  /\ key_of (@compile TreeKey tree_hasher gf') 2
     = key_of (@compile TreeKey tree_hasher gf) 2.
Proof.
  intros g g' gf gf'.
  assert (F : finalize g = inr gf) by (vm_compute; reflexivity).
  assert (F' : finalize g' = inr gf') by (vm_compute; reflexivity).
  assert (Hfw : forward g).
  { intros u d Hin. simpl in Hin.
    destruct Hin as [E|[E|[E|[]]]]; injection E as E1 E2; lia. }
  destruct (argument_change_invalidates_downstream
              TreeKey tree_hasher g 1
              (hub_stage "retrieve_from_faiss_by_prompt" example_retrieve
                         retrieve_arguments no_resources)
              changed_retrieve_arguments gf gf'
              tree_hasher_collision_free F F' eq_refl)
    as [Hch [Hfr _]].
  - vm_compute. intros E. discriminate.
  - repeat apply conj; try assumption.
    + apply Hch; [simpl; lia | constructor].
    + apply Hch; [simpl; lia|].
      apply (reaches_step g 1 1 3); [constructor | simpl; now left].
    + apply Hfr; [simpl; lia|].
      intros R. apply (reaches_forward g 1 0 Hfw) in R. lia.
    + apply Hfr; [simpl; lia|].
      intros R. destruct (reaches_upstream g 1 2 R) as [u [Hu Ru]];
        [lia|].
      simpl in Hu. destruct Hu as [E|[]]. subst u.
      apply (reaches_forward g 1 0 Hfw) in Ru. lia.
Defined.

(* ================================================================== *)
(** * Schema errors                                                    *)
(* ================================================================== *)

Lemma FieldType_eqb_eq (a b : FieldType) :
  FieldType_eqb a b = true <-> a = b.
Proof.
  revert b. induction a; intros b; destruct b; simpl;
    try (split; [reflexivity | reflexivity]);
    try (split; [discriminate | discriminate]).
  rewrite IHa. split; intros E; congruence.
Qed.

Lemma lookup_subset_none (n : string) (s : Schema) :
  lookup_subset n s = None <-> ~ In n (subset_names s).
Proof.
  induction s as [|[m fs] s IH]; simpl; [tauto|].
  destruct (String.eqb_spec n m) as [E|N].
  - subst. split; [discriminate | tauto].
  - rewrite IH. intuition congruence.
Qed.

Lemma lookup_subset_first (n : string) (s : Schema) (fs : list Field) :
  lookup_subset n s = Some fs <-> first_subset s n fs.
Proof.
  unfold first_subset. split.
  - induction s as [|[m fs'] s IH]; simpl; [discriminate|].
    destruct (String.eqb_spec n m) as [E|N].
    + intros X. injection X as X. subst. exists [], s. split; [reflexivity|].
      intros [].
    + intros X. destruct (IH X) as [before [after [E Hn]]].
      exists ((m, fs') :: before), after. split.
      * simpl. now rewrite E.
      * simpl. intros [Y|Y]; [congruence | contradiction].
  - intros [before [after [E Hn]]]. subst s.
    induction before as [|[m fs'] before IH]; simpl.
    + now rewrite String.eqb_refl.
    + simpl in Hn. destruct (String.eqb_spec n m) as [X|X].
      * exfalso. apply Hn. left. now symmetry.
      * apply IH. intros Y. apply Hn. now right.
Qed.

Lemma lookup_field_none (n : string) (fs : list Field) :
  lookup_field n fs = None <-> ~ In n (map field_name fs).
Proof.
  induction fs as [|f fs IH]; simpl; [tauto|].
  destruct (String.eqb_spec n (field_name f)) as [E|N].
  - split; [discriminate | intros X; exfalso; apply X; left; now symmetry].
  - rewrite IH. intuition congruence.
Qed.

Lemma lookup_field_first (n : string) (fs : list Field) (t : FieldType) :
  lookup_field n fs = Some t <-> first_field fs n t.
Proof.
  unfold first_field. split.
  - induction fs as [|f fs IH]; simpl; [discriminate|].
    destruct (String.eqb_spec n (field_name f)) as [E|N].
    + intros X. injection X as X. exists [], fs. split; [|intros []].
      destruct f as [fn ft]. simpl in *. now subst.
    + intros X. destruct (IH X) as [before [after [E Hn]]].
      exists (f :: before), after. split.
      * simpl. now rewrite E.
      * simpl. intros [Y|Y]; [congruence | contradiction].
  - intros [before [after [E Hn]]]. subst fs.
    induction before as [|f before IH]; simpl.
    + now rewrite String.eqb_refl.
    + simpl in Hn. destruct (String.eqb_spec n (field_name f)) as [X|X].
      * exfalso. apply Hn. left. now symmetry.
      * apply IH. intros Y. apply Hn. now right.
Qed.

(** The lookup of the registry finds what the schema offers. *)
Lemma actual_type_offers (available : Schema) (sub : string) (f : Field)
      (t : FieldType) :
  actual_type available sub f = Some t
  <-> offers available sub (field_name f) t.
Proof.
  unfold actual_type, offers. split.
  - destruct (lookup_subset sub available) as [fs|] eqn:E; [|discriminate].
    intros X. exists fs. split.
    + now apply lookup_subset_first.
    + now apply lookup_field_first.
  - intros [fs [Hs Hf]]. apply lookup_subset_first in Hs. rewrite Hs.
    now apply lookup_field_first.
Qed.

Lemma actual_type_nothing (available : Schema) (sub : string) (f : Field) :
  actual_type available sub f = None
  <-> forall t, ~ offers available sub (field_name f) t.
Proof.
  split.
  - intros E t Ho. apply actual_type_offers in Ho. congruence.
  - intros Hn. destruct (actual_type available sub f) as [t|] eqn:E;
      [|reflexivity].
    exfalso. apply (Hn t). now apply actual_type_offers.
Qed.

Lemma field_ok_offers (available : Schema) (sub : string) (f : Field) :
  field_ok available sub f = true
  <-> offers available sub (field_name f) (field_type f).
Proof.
  unfold field_ok. split.
  - destruct (actual_type available sub f) as [t|] eqn:E; [|discriminate].
    intros X. apply FieldType_eqb_eq in X. subst t.
    now apply actual_type_offers.
  - intros Ho. apply actual_type_offers in Ho. rewrite Ho.
    now apply FieldType_eqb_eq.
Qed.

(** [is_subset] decides the structural subset relation. *)
Lemma is_subset_structural (required available : Schema) :
  is_subset required available = true
  <-> structural_subset required available.
Proof.
  unfold is_subset, structural_subset. rewrite forallb_forall. split.
  - intros Hall sub fs Hin. specialize (Hall (sub, fs) Hin). simpl in Hall.
    destruct (lookup_subset sub available) as [afs|] eqn:E; [|discriminate].
    split.
    + destruct (in_dec string_dec sub (subset_names available)) as [Y|N];
        [exact Y|].
      apply lookup_subset_none in N. congruence.
    + intros f Hf. rewrite forallb_forall in Hall.
      apply field_ok_offers. now apply Hall.
  - intros Hall [sub fs] Hin. simpl.
    destruct (Hall sub fs Hin) as [Hs Hf].
    destruct (lookup_subset sub available) as [afs|] eqn:E.
    + apply forallb_forall. intros f Hin'. apply field_ok_offers.
      now apply Hf.
    + apply lookup_subset_none in E. contradiction.
Qed.

Lemma field_ok_false (available : Schema) (sub : string) (f : Field) :
  field_ok available sub f = false
  <-> actual_type available sub f <> Some (field_type f).
Proof.
  unfold field_ok. destruct (actual_type available sub f) as [t|].
  - destruct (FieldType_eqb t (field_type f)) eqn:E.
    + apply FieldType_eqb_eq in E. subst. split; [discriminate | congruence].
    + split; [|reflexivity]. intros _ X. injection X as X.
      apply FieldType_eqb_eq in X. congruence.
  - split; [discriminate | reflexivity].
Qed.

Lemma schema_mismatches_In (required available : Schema) (m : Mismatch) :
  In m (schema_mismatches required available)
  <-> exists sub fs f,
        In (sub, fs) required /\ In f fs
        /\ actual_type available sub f <> Some (field_type f)
        /\ m = mkMismatch sub (field_name f) (field_type f)
                          (actual_type available sub f).
Proof.
  unfold schema_mismatches. rewrite in_flat_map. split.
  - intros [[sub fs] [He Hm]]. simpl in Hm. apply in_flat_map in Hm.
    destruct Hm as [f [Hf Hm]].
    destruct (field_ok available sub f) eqn:E; [destruct Hm|].
    destruct Hm as [Hm|[]]. exists sub, fs, f.
    repeat split; try assumption; [|now symmetry].
    now apply field_ok_false.
  - intros [sub [fs [f [He [Hf [Hne Em]]]]]].
    exists (sub, fs). split; [exact He|]. simpl.
    apply in_flat_map. exists f. split; [exact Hf|].
    apply field_ok_false in Hne. rewrite Hne. left. now symmetry.
Qed.

(** A field is reported as missing exactly when it is required and the
    available schema offers no field of that name in that subset. *)
Lemma reported_missing (required available : Schema) (sub n : string)
      (t : FieldType) :
  In (mkMismatch sub n t None) (schema_mismatches required available)
  <-> (exists fs, In (sub, fs) required /\ In (mkField n t) fs)
      /\ forall t', ~ offers available sub n t'.
Proof.
  rewrite schema_mismatches_In. split.
  - intros [sub' [fs [[fn ft] [He [Hf [Hne Em]]]]]]. simpl in Em.
    injection Em as E1 E2 E3 E4. subst sub' fn ft. split.
    + now exists fs.
    + symmetry in E4.
      exact (proj1 (actual_type_nothing available sub (mkField n t)) E4).
  - intros [[fs [He Hf]] Hn]. exists sub, fs, (mkField n t).
    assert (E : actual_type available sub (mkField n t) = None)
      by exact (proj2 (actual_type_nothing available sub (mkField n t)) Hn).
    repeat split; try assumption.
    + rewrite E. discriminate.
    + now rewrite E.
Qed.

(** A field is reported with another type exactly when it is required and
    the available schema offers it with that other type. *)
Lemma reported_mistyped (required available : Schema) (sub n : string)
      (t t' : FieldType) :
  In (mkMismatch sub n t (Some t')) (schema_mismatches required available)
  <-> (exists fs, In (sub, fs) required /\ In (mkField n t) fs)
      /\ offers available sub n t' /\ t' <> t.
Proof.
  rewrite schema_mismatches_In. split.
  - intros [sub' [fs [[fn ft] [He [Hf [Hne Em]]]]]]. simpl in Em.
    injection Em as E1 E2 E3 E4. subst sub' fn ft. simpl in Hne.
    symmetry in E4. split; [now exists fs|]. split.
    + exact (proj1 (actual_type_offers available sub (mkField n t) t') E4).
    + intros X. subst t'. congruence.
  - intros [[fs [He Hf]] [Ho Hne]]. exists sub, fs, (mkField n t).
    assert (E : actual_type available sub (mkField n t) = Some t')
      by exact (proj2 (actual_type_offers available sub (mkField n t) t') Ho).
    repeat split; try assumption.
    + rewrite E. simpl. congruence.
    + now rewrite E.
Qed.

Lemma missing_subsets_In (required available : Schema) (n : string) :
  In n (missing_subsets required available)
  <-> In n (subset_names required) /\ ~ In n (subset_names available).
Proof.
  unfold missing_subsets. rewrite filter_In, negb_true_iff.
  assert (X : existsb (String.eqb n) (subset_names available) = false
              <-> ~ In n (subset_names available)).
  { destruct (existsb (String.eqb n) (subset_names available)) eqn:E.
    - apply existsb_exists in E. destruct E as [m [Hm Em]].
      apply String.eqb_eq in Em. subst m. split; [discriminate | tauto].
    - split; [|reflexivity]. intros _ Hin.
      assert (Y : existsb (String.eqb n) (subset_names available) = true).
      { apply existsb_exists. exists n. split; [exact Hin|].
        apply String.eqb_refl. }
      congruence. }
  now rewrite X.
Qed.

(** The report of an incompatible [consumes] names something: a missing
    subset, or a missing or mistyped field. *)
Lemma incompatibility_named (required available : Schema) :
  is_subset required available = false ->
  missing_subsets required available <> []
  \/ schema_mismatches required available <> [].
Proof.
  intros Hsub.
  destruct (missing_subsets required available) as [|a l] eqn:Em;
    [|left; discriminate].
  destruct (schema_mismatches required available) as [|b l] eqn:Es;
    [|right; discriminate].
  exfalso.
  assert (T : is_subset required available = true); [|congruence].
  unfold is_subset. apply forallb_forall. intros [sub fs] Hin. simpl.
  destruct (lookup_subset sub available) as [afs|] eqn:E.
  - apply forallb_forall. intros f Hf.
    destruct (field_ok available sub f) eqn:Ef; [reflexivity|].
    exfalso.
    assert (X : In (mkMismatch sub (field_name f) (field_type f)
                               (actual_type available sub f))
                   (schema_mismatches required available)).
    { apply schema_mismatches_In. exists sub, fs, f.
      repeat split; try assumption. now apply field_ok_false. }
    rewrite Es in X. destruct X.
  - exfalso.
    assert (X : In sub (missing_subsets required available)).
    { apply missing_subsets_In. split.
      - unfold subset_names. apply in_map_iff. now exists (sub, fs).
      - now apply lookup_subset_none. }
    rewrite Em in X. destruct X.
Qed.

Lemma validate_finalize (g : PipelineGraph) (e : BuildError) :
  In e (validate g) -> finalize g = inl (validate g).
Proof.
  unfold finalize. destruct (validate g); [intros [] | reflexivity].
Qed.

(** C4. When the [consumes] of a stage is not a structural subset (by
    subset name, field name and identical type) of the union of its
    upstreams' [produces], validation fails, and among the collected
    errors is a [SchemaError] for that stage which names something: the
    required subsets that no upstream provides, and one tuple
    [(subset, field, expected type, actual type or missing)] for each
    required field that is missing or offered with another type, and for
    no other field. *)
Theorem schema_error_names_fields :
  forall (g : PipelineGraph) (i : nat) (s : StageDescriptor),
    nth_error (stages g) i = Some s ->
    ~ structural_subset (consumes s) (available_to g i) ->
    exists missing tuples,
      In (SchemaError (name s) (Incompatible missing tuples)) (validate g)
      /\ finalize g = inl (validate g)
      /\ (missing <> [] \/ tuples <> [])
      /\ (forall sub,
            In sub missing
            <-> In sub (subset_names (consumes s))
                /\ ~ In sub (subset_names (available_to g i)))
      /\ (forall sub n t,
            In (mkMismatch sub n t None) tuples
            <-> (exists fs, In (sub, fs) (consumes s)
                            /\ In (mkField n t) fs)
                /\ forall t', ~ offers (available_to g i) sub n t')
      /\ (forall sub n t t',
            In (mkMismatch sub n t (Some t')) tuples
            <-> (exists fs, In (sub, fs) (consumes s)
                            /\ In (mkField n t) fs)
                /\ offers (available_to g i) sub n t' /\ t' <> t).
Proof.
  intros g i s Es Hns.
  assert (Hsub : is_subset (consumes s) (available_to g i) = false).
  { destruct (is_subset (consumes s) (available_to g i)) eqn:E;
      [|reflexivity].
    exfalso. apply Hns. now apply is_subset_structural. }
  exists (missing_subsets (consumes s) (available_to g i)),
         (schema_mismatches (consumes s) (available_to g i)).
  assert (Hin : In (SchemaError (name s)
                      (Incompatible
                         (missing_subsets (consumes s) (available_to g i))
                         (schema_mismatches (consumes s) (available_to g i))))
                   (validate g)).
  { unfold validate. apply in_or_app. right. apply in_or_app. left.
    unfold schema_errors. apply in_flat_map. exists (i, s).
    split; [now apply indexed_In|].
    simpl. unfold stage_schema_errors. rewrite Hsub.
    apply in_or_app. left. now left. }
  repeat apply conj.
  - exact Hin.
  - exact (validate_finalize g _ Hin).
  - now apply incompatibility_named.
  - intros sub. apply missing_subsets_In.
  - intros sub n t. apply reported_missing.
  - intros sub n t t'. apply reported_mistyped.
Qed.

Lemma schema_error_names_fields_witness :
  ~ structural_subset (consumes mixed_consumer)
                      (available_to mixed_mismatch_graph 4)
  /\ validate mixed_mismatch_graph
     = [SchemaError "E"
          (Incompatible []
             [mkMismatch "captions" "caption" TString None;
              mkMismatch "captions" "text" TInteger (Some TString)])]
  /\ validate caption_mismatch_graph
     = [SchemaError "D"
          (Incompatible [] [mkMismatch "captions" "caption" TString None])]
  /\ validate bare_mismatch_graph
     = [SchemaError "F" (Incompatible ["captions_v2"] [])]
  /\ exists missing tuples,
       In (SchemaError "E" (Incompatible missing tuples))
          (validate mixed_mismatch_graph)
       /\ (missing <> [] \/ tuples <> [])
       /\ offers (available_to mixed_mismatch_graph 4)
                 "captions" "text" TString
       /\ forall t', ~ offers (available_to mixed_mismatch_graph 4)
                              "captions" "caption" t'.
Proof.
  assert (Hns : ~ structural_subset (consumes mixed_consumer)
                                    (available_to mixed_mismatch_graph 4)).
  { intros Hs. apply is_subset_structural in Hs. vm_compute in Hs.
    discriminate. }
  assert (Hv : validate mixed_mismatch_graph
               = [SchemaError "E"
                    (Incompatible []
                       [mkMismatch "captions" "caption" TString None;
                        mkMismatch "captions" "text" TInteger (Some TString)])])
    by (vm_compute; reflexivity).
  split; [exact Hns|]. split; [exact Hv|].
  split; [vm_compute; reflexivity|]. split; [vm_compute; reflexivity|].
  destruct (schema_error_names_fields mixed_mismatch_graph 4 mixed_consumer
              eq_refl Hns)
    as [missing [tuples [Hin [_ [Hne [_ [Hmiss Hmist]]]]]]].
  exists missing, tuples.
  assert (Et : tuples = [mkMismatch "captions" "caption" TString None;
                         mkMismatch "captions" "text" TInteger (Some TString)]).
  { rewrite Hv in Hin. destruct Hin as [E|[]]. injection E as _ E.
    now symmetry. }
  repeat apply conj.
  - exact Hin.
  - exact Hne.
  - apply (Hmist "captions" "text" TInteger TString).
    rewrite Et. right. left. reflexivity.
  - apply (Hmiss "captions" "caption" TString).
    rewrite Et. left. reflexivity.
Defined.

(* ================================================================== *)
(** * Further properties of the notebook's code                        *)
(* ================================================================== *)

Lemma version_check_outcome (upper_minor : Z) (v : VersionInfo) :
  (0 <= micro v)%Z ->
  version_check [PInt 3; PInt upper_minor; PInt 0] v
  = if (major v =? 3)%Z && (8 <=? minor v)%Z && (minor v <? upper_minor)%Z
    then Passes else RaisesException.
Proof.
  intros Hm. destruct v as [M m u lvl ser]. simpl in Hm.
  unfold version_check, version_tuple. simpl.
  destruct (Z.eqb_spec M 3) as [EM|NM].
  - destruct (Z.eqb_spec m 8) as [E8|N8].
    + destruct (Z.eqb_spec u 0) as [E0|N0]; simpl.
      * subst. destruct (Z.eqb_spec 8 upper_minor) as [E|N]; simpl.
        -- subst upper_minor. reflexivity.
        -- destruct (Z.leb_spec upper_minor 8), (Z.ltb_spec 8 upper_minor);
             try reflexivity; lia.
      * destruct (Z.ltb_spec u 0); [lia|]. subst.
        destruct (Z.eqb_spec 8 upper_minor) as [E|N]; simpl.
        -- subst upper_minor. destruct (Z.leb_spec 0 u); [reflexivity | lia].
        -- destruct (Z.leb_spec upper_minor 8), (Z.ltb_spec 8 upper_minor);
             try reflexivity; lia.
    + simpl. destruct (Z.ltb_spec m 8) as [L|G]; simpl.
      * destruct (Z.leb_spec 8 m); [lia | reflexivity].
      * destruct (Z.leb_spec 8 m); [|lia]. simpl.
        destruct (Z.eqb_spec m upper_minor) as [E|N]; simpl.
        -- subst upper_minor.
           destruct (Z.ltb_spec m m); [lia|].
           destruct (Z.eqb_spec u 0); simpl; [reflexivity|].
           destruct (Z.leb_spec 0 u); [reflexivity | lia].
        -- destruct (Z.leb_spec upper_minor m), (Z.ltb_spec m upper_minor);
             try reflexivity; lia.
  - simpl. destruct (Z.ltb_spec M 3); [reflexivity|].
    destruct (Z.leb_spec 3 M); [reflexivity | lia].
Qed.

(** X1. The version check of the notebook passes exactly on a Python 3
    with minor version 8 to 11, and the check of the earlier notebook
    exactly on minor version 8 to 10, whatever the micro version, release
    level and serial; otherwise it raises its [Exception].  Comparing the
    five-element [sys.version_info] with a three-element bound never
    reaches the release-level string, so no [TypeError] is raised. *)
Theorem version_check_accepts_range :
  forall v : VersionInfo,
    (0 <= micro v)%Z ->
    (notebook_version_check v = Passes
     <-> major v = 3%Z /\ (8 <= minor v <= 11)%Z)
    /\ (notebook_version_check v = RaisesException
        <-> ~ (major v = 3%Z /\ (8 <= minor v <= 11)%Z))
    /\ (earlier_version_check v = Passes
        <-> major v = 3%Z /\ (8 <= minor v <= 10)%Z)
    /\ (earlier_version_check v = RaisesException
        <-> ~ (major v = 3%Z /\ (8 <= minor v <= 10)%Z))
    /\ notebook_version_check v <> RaisesTypeError
    /\ earlier_version_check v <> RaisesTypeError.
Proof.
  intros v Hm. unfold notebook_version_check, earlier_version_check.
  rewrite !(version_check_outcome _ v Hm).
  destruct (Z.eqb_spec (major v) 3) as [EM|NM]; simpl;
    destruct (Z.leb_spec 8 (minor v)); simpl;
    destruct (Z.ltb_spec (minor v) 12); simpl;
    destruct (Z.ltb_spec (minor v) 11); simpl;
    repeat apply conj; try split; intros; try discriminate;
    try reflexivity; try lia; try tauto;
    try (intros [? ?]; lia);
    try (exfalso; lia).
  all: match goal with
       | X : ~ _ |- _ => exfalso; apply X; lia
       | X : _ /\ _ |- _ => lia
       | |- _ => idtac
       end.
Qed.

Lemma version_check_accepts_range_witness :
  let v := mkVersion 3 10 12 "final" 0 in
  (0 <= micro v)%Z
  /\ notebook_version_check v = Passes
  /\ earlier_version_check v = Passes
  /\ notebook_version_check (mkVersion 3 11 0 "alpha" 1) = Passes
  /\ earlier_version_check (mkVersion 3 11 0 "alpha" 1) = RaisesException.
Proof.
  intros v.
  assert (Hm : (0 <= micro v)%Z) by (simpl; lia).
  destruct (version_check_accepts_range v Hm) as [H1 [_ [H2 _]]].
  repeat apply conj.
  - exact Hm.
  - apply H1. simpl. lia.
  - apply H2. simpl. lia.
  - reflexivity.
  - reflexivity.
Defined.

Lemma length_all_rows (lower : string -> string) :
  length (all_rows lower) = 2340.
Proof. unfold all_rows. rewrite length_map. apply length_prompts. Qed.

Lemma rows_head (n : Z) (df : DataFrame) :
  rows (head n df)
  = if (0 <=? n)%Z then firstn (Z.to_nat n) (rows df)
    else firstn (length (rows df) - Z.to_nat (- n)) (rows df).
Proof. unfold head. destruct (0 <=? n)%Z; reflexivity. Qed.

(** The rows [load] returns, for every value of [n_rows_to_load]. *)
Lemma load_into_rows (lower : string -> string) (column : string)
      (n : option Z) :
  rows (frame (load_into lower column n))
  = match n with
    | None => all_rows lower
    | Some z =>
        if (z =? 0)%Z then all_rows lower
        else if (0 <=? z)%Z then firstn (Z.to_nat z) (all_rows lower)
             else firstn (2340 - Z.to_nat (- z)) (all_rows lower)
    end.
Proof.
  destruct n as [z|]; [|reflexivity].
  unfold load_into, from_pandas, truthy. cbn [frame].
  destruct (z =? 0)%Z; cbn [negb]; [reflexivity|].
  rewrite rows_head.
  change (rows (frame_of_prompts column (prompts lower)))
    with (all_rows lower).
  now rewrite length_all_rows.
Qed.

Lemma load_into_prefix (lower : string -> string) (column : string)
      (n : option Z) :
  exists k, k <= 2340
            /\ rows (frame (load_into lower column n))
               = firstn k (all_rows lower)
            /\ length (rows (frame (load_into lower column n))) = k.
Proof.
  assert (Hk : forall k, exists k', k' <= 2340
             /\ firstn k (all_rows lower) = firstn k' (all_rows lower)
             /\ length (firstn k (all_rows lower)) = k').
  { intros k. exists (min k 2340). repeat apply conj.
    - lia.
    - destruct (le_lt_dec k 2340) as [L|G].
      + now rewrite Nat.min_l by lia.
      + rewrite Nat.min_r by lia.
        rewrite !firstn_all2; try reflexivity;
          rewrite length_all_rows; lia.
    - now rewrite length_firstn, length_all_rows. }
  assert (Hall : exists k', k' <= 2340
             /\ all_rows lower = firstn k' (all_rows lower)
             /\ length (all_rows lower) = k').
  { exists 2340. repeat apply conj; [lia | | apply length_all_rows].
    rewrite firstn_all2; [reflexivity | rewrite length_all_rows; lia]. }
  rewrite load_into_rows.
  destruct n as [z|]; [|exact Hall].
  destruct (z =? 0)%Z; [exact Hall|].
  destruct (0 <=? z)%Z; apply Hk.
Qed.

(** X2. For a positive [n_rows_to_load] the component returns the first
    [n] rows of the full frame, in their order, or all 2340 rows when [n]
    is larger: the row count is [min n 2340].  This holds for the
    notebook's [load] and for the one of [main.py]. *)
Theorem load_positive_limit :
  forall (lower : string -> string) (n : Z),
    (0 < n)%Z ->
    rows (frame (load lower (Some n)))
    = firstn (Z.to_nat n) (rows (frame (load lower None)))
    /\ length (rows (frame (load lower (Some n)))) = min (Z.to_nat n) 2340
    /\ rows (frame (load_main_py lower (Some n)))
       = firstn (Z.to_nat n) (rows (frame (load_main_py lower None)))
    /\ length (rows (frame (load_main_py lower (Some n))))
       = min (Z.to_nat n) 2340.
Proof.
  intros lower n Hn. unfold load, load_main_py.
  rewrite !load_into_rows.
  destruct (Z.eqb_spec n 0); [lia|].
  destruct (Z.leb_spec 0 n); [|lia].
  repeat apply conj; try reflexivity;
    now rewrite length_firstn, length_all_rows.
Qed.

Lemma load_positive_limit_witness :
  (0 < 10)%Z
  /\ length (rows (frame (load ascii_lower (Some 10%Z)))) = 10
  /\ length (rows (frame (load ascii_lower (Some 5000%Z)))) = 2340.
Proof.
  assert (H10 : (0 < 10)%Z) by lia.
  assert (H5000 : (0 < 5000)%Z) by lia.
  destruct (load_positive_limit ascii_lower 10 H10) as [_ [L10 _]].
  destruct (load_positive_limit ascii_lower 5000 H5000) as [_ [L5000 _]].
  repeat apply conj; [exact H10 | exact L10 | exact L5000].
Defined.

(** X3. A negative [n_rows_to_load] is not rejected: the component drops
    the last [|n|] rows of the full frame and returns the remaining
    [2340 - |n|], none at all from [n = -2340] downwards. *)
Theorem load_negative_limit :
  forall (lower : string -> string) (n : Z),
    (n < 0)%Z ->
    rows (frame (load lower (Some n)))
    = firstn (2340 - Z.to_nat (- n)) (rows (frame (load lower None)))
    /\ length (rows (frame (load lower (Some n)))) = 2340 - Z.to_nat (- n)
    /\ ((n <= -2340)%Z -> rows (frame (load lower (Some n))) = [])
    /\ rows (frame (load_main_py lower (Some n)))
       = firstn (2340 - Z.to_nat (- n))
                (rows (frame (load_main_py lower None)))
    /\ length (rows (frame (load_main_py lower (Some n))))
       = 2340 - Z.to_nat (- n).
Proof.
  intros lower n Hn. unfold load, load_main_py.
  rewrite !load_into_rows.
  destruct (Z.eqb_spec n 0); [lia|].
  destruct (Z.leb_spec 0 n); [lia|].
  repeat apply conj; try reflexivity;
    try (rewrite length_firstn, length_all_rows; lia).
  intros Hle.
  replace (2340 - Z.to_nat (- n)) with 0 by lia. reflexivity.
Qed.

Lemma load_negative_limit_witness :
  (-2330 < 0)%Z
  /\ length (rows (frame (load ascii_lower (Some (-2330)%Z)))) = 10
  /\ rows (frame (load ascii_lower (Some (-3000)%Z))) = [].
Proof.
  assert (H1 : (-2330 < 0)%Z) by lia.
  assert (H2 : (-3000 < 0)%Z) by lia.
  destruct (load_negative_limit ascii_lower (-2330) H1) as [_ [L _]].
  destruct (load_negative_limit ascii_lower (-3000) H2) as [_ [_ [E _]]].
  repeat apply conj; [exact H1 | exact L | apply E; lia].
Defined.

Lemma firstn_subset {A : Type} (n : nat) (l : list A) (x : A) :
  In x (firstn n l) -> In x l.
Proof.
  intros Hx. rewrite <- (firstn_skipn n l). apply in_or_app. now left.
Qed.

Lemma NoDup_firstn {A : Type} (n : nat) (l : list A) :
  NoDup l -> NoDup (firstn n l).
Proof.
  intros ND. rewrite <- (firstn_skipn n l) in ND.
  now apply NoDup_app_remove_r in ND.
Qed.

(** X4. Whatever [n_rows_to_load] is, the frame [load] returns has one
    partition and one column, named "prompt" as the field the notebook's
    component declares in [produces] ("prompts_text" in [main.py]); every
    row has one cell; and the rows are a prefix of the full frame of the
    2340 prompts, so [load] never adds, reorders or alters a row. *)
Theorem load_frame_shape :
  forall (lower : string -> string) (n : option Z),
    columns (frame (load lower n)) = ["prompt"]
    /\ columns (frame (load lower n))
       = map field_name (concat (map snd (produces generate_prompts_stage)))
    /\ columns (frame (load_main_py lower n)) = ["prompts_text"]
    /\ npartitions (load lower n) = 1
    /\ npartitions (load_main_py lower n) = 1
    /\ Forall (fun row => length row = 1) (rows (frame (load lower n)))
    /\ length (rows (frame (load lower n))) <= 2340
    /\ rows (frame (load lower n))
       = firstn (length (rows (frame (load lower n))))
                (rows (frame (load lower None)))
    /\ rows (frame (load_main_py lower n)) = rows (frame (load lower n)).
Proof.
  intros lower n.
  assert (Hcol : forall c, columns (frame (load_into lower c n)) = [c]).
  { intros c. unfold load_into.
    destruct (truthy n); [|reflexivity].
    destruct n as [z|]; [|reflexivity].
    unfold head. destruct (0 <=? z)%Z; reflexivity. }
  destruct (load_into_prefix lower "prompt" n) as [k [Hk [Er El]]].
  unfold load, load_main_py.
  repeat apply conj.
  - apply Hcol.
  - rewrite Hcol. reflexivity.
  - apply Hcol.
  - reflexivity.
  - reflexivity.
  - rewrite Er. apply Forall_forall. intros row Hrow.
    apply firstn_subset in Hrow. unfold all_rows in Hrow.
    apply in_map_iff in Hrow. destruct Hrow as [p [E _]]. now subst.
  - lia.
  - rewrite El, Er. rewrite (load_into_rows lower "prompt" None). reflexivity.
  - now rewrite !load_into_rows.
Qed.

Lemma nth_error_flat_map_blocks {A B : Type} (f : A -> list B) (m : nat)
      (xs : list A) :
  (forall x, In x xs -> length (f x) = m) ->
  forall i k x,
    nth_error xs i = Some x -> k < m ->
    nth_error (flat_map f xs) (i * m + k) = nth_error (f x) k.
Proof.
  induction xs as [|a xs IH]; intros Hlen i k x E Hk.
  - destruct i; discriminate.
  - destruct i as [|i]; simpl in E.
    + injection E as E. subst a. simpl.
      apply nth_error_app1. rewrite (Hlen x) by now left. exact Hk.
    + cbn [flat_map]. rewrite nth_error_app2;
        rewrite (Hlen a) by now left.
      * replace (S i * m + k - m) with (i * m + k) by lia.
        apply IH; try assumption. intros y Hy. apply Hlen. now right.
      * lia.
Qed.

Lemma length_inner_product {A B C : Type} (ys : list B) (zs : list C) (x : A) :
  length (flat_map (fun y => map (fun z => (x, y, z)) zs) ys)
  = length ys * length zs.
Proof.
  induction ys as [|y ys IH]; simpl; [reflexivity|].
  now rewrite length_app, length_map, IH.
Qed.

(** [itertools.product] as an index computation: the element at position
    [(i * |ys| + j) * |zs| + k] is the triple of the elements at [i], [j]
    and [k]. *)
Lemma nth_error_product {A B C : Type} (xs : list A) (ys : list B)
      (zs : list C) (i j k : nat) (x : A) (y : B) (z : C) :
  nth_error xs i = Some x -> nth_error ys j = Some y ->
  nth_error zs k = Some z ->
  nth_error (product xs ys zs) ((i * length ys + j) * length zs + k)
  = Some (x, y, z).
Proof.
  intros Ex Ey Ez.
  assert (Hj : j < length ys) by (apply nth_error_Some; congruence).
  assert (Hk : k < length zs) by (apply nth_error_Some; congruence).
  unfold product.
  replace ((i * length ys + j) * length zs + k)
    with (i * (length ys * length zs) + (j * length zs + k)) by nia.
  rewrite (nth_error_flat_map_blocks _ (length ys * length zs) xs) with (x := x).
  - rewrite (nth_error_flat_map_blocks _ (length zs) ys) with (x := y).
    + rewrite nth_error_map, Ez. reflexivity.
    + intros y0 _. apply length_map.
    + exact Ey.
    + exact Hk.
  - intros x0 _. apply length_inner_product.
  - exact Ex.
  - nia.
Qed.

(** X5. The rows come in the order of [itertools.product], the style
    advancing fastest: for the room at position [r], the prefix at
    position [p] and the style at position [s] of their lists, row
    [(r * 3 + p) * 26 + s] of the full frame is the prompt of that room,
    prefix and style. *)
Theorem load_row_order :
  forall (lower : string -> string) (r p s : nat)
         (room prefix style : string),
    nth_error rooms r = Some room ->
    nth_error interior_prefix p = Some prefix ->
    nth_error interior_styles s = Some style ->
    nth_error (rows (frame (load lower None))) ((r * 3 + p) * 26 + s)
    = Some [make_interior_prompt lower room prefix style]
    /\ nth_error (rows (frame (load_main_py lower None)))
                 ((r * 3 + p) * 26 + s)
       = Some [make_interior_prompt lower room prefix style].
Proof.
  intros lower r p s room prefix style Er Ep Es.
  assert (E : nth_error (all_rows lower) ((r * 3 + p) * 26 + s)
              = Some [make_interior_prompt lower room prefix style]).
  { assert (P : nth_error (product rooms interior_prefix interior_styles)
                            ((r * 3 + p) * 26 + s)
                  = Some (room, prefix, style))
      by exact (nth_error_product rooms interior_prefix interior_styles
                  r p s room prefix style Er Ep Es).
    unfold all_rows, prompts, room_tuples.
    rewrite !nth_error_map, P. reflexivity. }
  unfold load, load_main_py. rewrite !load_into_rows. split; exact E.
Qed.

Lemma load_row_order_witness :
  nth_error rooms 5 = Some "Kitchen"
  /\ nth_error interior_prefix 1 = Some "luxurious"
  /\ nth_error interior_styles 6 = Some "minimalist"
  /\ nth_error (rows (frame (load ascii_lower None))) 422
     = Some ["luxurious kitchen, minimalist interior design"].
Proof.
  split; [reflexivity|]. split; [reflexivity|]. split; [reflexivity|].
  exact (proj1 (load_row_order ascii_lower 5 1 6 "Kitchen" "luxurious"
                               "minimalist" eq_refl eq_refl eq_refl)).
Defined.

Lemma first_block (lower : string -> string) :
  firstn 26 (all_rows lower)
  = map (fun style => [make_interior_prompt lower "Bathroom" "comfortable"
                                            style])
        interior_styles.
Proof. reflexivity. Qed.

(** X6. A limit of at most 26 rows, such as the 10 of the notebook, covers
    a single room and a single prefix: every row loaded is the prompt of a
    "comfortable" "Bathroom" in one of the styles. *)
Theorem small_limit_single_room :
  forall (lower : string -> string) (n : Z),
    (0 < n <= 26)%Z ->
    forall row,
      In row (rows (frame (load lower (Some n)))) ->
      exists style,
        In style interior_styles
        /\ row = [make_interior_prompt lower "Bathroom" "comfortable" style].
Proof.
  intros lower n Hn row Hrow.
  unfold load in Hrow. rewrite load_into_rows in Hrow.
  destruct (Z.eqb_spec n 0); [lia|].
  destruct (Z.leb_spec 0 n); [|lia].
  replace (Z.to_nat n) with (min (Z.to_nat n) 26) in Hrow by lia.
  rewrite <- firstn_firstn in Hrow.
  apply firstn_subset in Hrow. rewrite first_block in Hrow.
  apply in_map_iff in Hrow. destruct Hrow as [style [E Hin]].
  exists style. split; [exact Hin | now symmetry].
Qed.

Lemma small_limit_single_room_witness :
  (0 < 10 <= 26)%Z
  /\ In ["comfortable bathroom, bauhaus interior design"]
        (rows (frame (load ascii_lower (Some 10%Z))))
  /\ exists style,
       In style interior_styles
       /\ ["comfortable bathroom, bauhaus interior design"]
          = [make_interior_prompt ascii_lower "Bathroom" "comfortable" style].
Proof.
  assert (Hn : (0 < 10 <= 26)%Z) by lia.
  assert (Hin : In ["comfortable bathroom, bauhaus interior design"]
                   (rows (frame (load ascii_lower (Some 10%Z)))))
    by (vm_compute; right; left; reflexivity).
  repeat apply conj; [lia | lia | exact Hin |].
  exact (small_limit_single_room ascii_lower 10 Hn _ Hin).
Defined.

Lemma row_eqb_eq (a b : list string) : row_eqb a b = true <-> a = b.
Proof.
  unfold row_eqb. destruct (list_eq_dec string_dec a b); split;
    intros; congruence.
Qed.

Lemma distinct_rows_NoDup (l : list (list string)) :
  distinct_rows l = true -> NoDup l.
Proof.
  induction l as [|x l IH]; simpl; intros E; [constructor|].
  apply andb_true_iff in E. destruct E as [E1 E2].
  constructor; [|now apply IH].
  intros Hin. apply negb_true_iff in E1.
  assert (X : existsb (row_eqb x) l = true).
  { apply existsb_exists. exists x. split; [exact Hin|].
    now apply row_eqb_eq. }
  congruence.
Qed.

Lemma first_rows_distinct : NoDup (firstn 23 (all_rows ascii_lower)).
Proof. apply distinct_rows_NoDup. vm_compute. reflexivity. Qed.

Lemma repeated_row (lower : string -> string) :
  nth_error (all_rows lower) 7 = nth_error (all_rows lower) 23.
Proof. reflexivity. Qed.

(** X7. The frame [load] returns is free of duplicate rows exactly when it
    has at most 23 rows: the 24th row of the full frame (second "rustic")
    repeats the 8th, so any limit above 23, and no limit at all, yields a
    repeated prompt. *)
Theorem load_duplicate_free_iff :
  forall n : option Z,
    NoDup (rows (frame (load ascii_lower n)))
    <-> length (rows (frame (load ascii_lower n))) <= 23.
Proof.
  intros n. unfold load.
  destruct (load_into_prefix ascii_lower "prompt" n) as [k [Hk [Er El]]].
  rewrite El, Er. split.
  - intros ND. destruct (le_lt_dec k 23) as [L|G]; [exact L|].
    exfalso. rewrite NoDup_nth_error in ND.
    assert (E : 7 = 23).
    { apply ND.
      - rewrite length_firstn, length_all_rows. lia.
      - rewrite !nth_error_firstn.
        destruct (Nat.ltb_spec 7 k); [|lia].
        destruct (Nat.ltb_spec 23 k); [|lia].
        apply repeated_row. }
    discriminate.
  - intros L.
    replace k with (min k 23) by lia.
    rewrite <- firstn_firstn. apply NoDup_firstn. apply first_rows_distinct.
Qed.

Lemma length_string_append (a b : string) :
  String.length (a ++ b)%string = String.length a + String.length b.
Proof.
  induction a as [|c a IH]; simpl; [reflexivity | now rewrite IH].
Qed.

Lemma append_cancel_tail (t : string) :
  forall a b : string, (a ++ t)%string = (b ++ t)%string -> a = b.
Proof.
  induction a as [|c a IH]; intros [|d b] E; simpl in E.
  - reflexivity.
  - exfalso. apply (f_equal String.length) in E. simpl in E.
    rewrite length_string_append in E. lia.
  - exfalso. apply (f_equal String.length) in E. simpl in E.
    rewrite length_string_append in E. lia.
  - injection E as Ec E. subst d. f_equal. now apply IH.
Qed.

(** Two strings that agree up to and after the first occurrence of a
    separator agree on both sides of it. *)
Lemma split_at_char (c : ascii) :
  forall (a a' x y : string),
    has_char c a = false -> has_char c a' = false ->
    (a ++ String c x)%string = (a' ++ String c y)%string ->
    a = a' /\ x = y.
Proof.
  induction a as [|d a IH]; intros [|d' a'] x y Ha Ha' E; simpl in *.
  - injection E as E. now split.
  - injection E as Ec E. subst d'.
    rewrite Ascii.eqb_refl in Ha'. discriminate.
  - injection E as Ec E. subst d.
    rewrite Ascii.eqb_refl in Ha. discriminate.
  - injection E as Ec E. subst d'.
    apply orb_false_iff in Ha. destruct Ha as [_ Ha].
    apply orb_false_iff in Ha'. destruct Ha' as [_ Ha'].
    destruct (IH a' x y Ha Ha' E) as [E1 E2]. subst. now split.
Qed.

Lemma make_interior_prompt_parts (lower : string -> string)
      (room prefix style : string) :
  make_interior_prompt lower room prefix style
  = (lower prefix
       ++ String " " (lower room
                        ++ String "," (String " "
                                         (lower style ++ " interior design"))))%string.
Proof. reflexivity. Qed.

(** X8. A prompt determines the lower-cased prefix, room and style it was
    made from, provided the lower-cased prefixes hold no space and the
    lower-cased rooms no comma (as all prefixes and rooms of the component
    do): two such triples with the same prompt have the same lower-cased
    parts. *)
Theorem prompt_determines_parts :
  forall (lower : string -> string)
         (room prefix style room' prefix' style' : string),
    has_char " " (lower prefix) = false ->
    has_char " " (lower prefix') = false ->
    has_char "," (lower room) = false ->
    has_char "," (lower room') = false ->
    make_interior_prompt lower room prefix style
    = make_interior_prompt lower room' prefix' style' ->
    lower prefix = lower prefix'
    /\ lower room = lower room'
    /\ lower style = lower style'.
Proof.
  intros lower room prefix style room' prefix' style' Hp Hp' Hr Hr' E.
  rewrite !make_interior_prompt_parts in E.
  apply (split_at_char " " _ _ _ _ Hp Hp') in E. destruct E as [Ep E].
  apply (split_at_char "," _ _ _ _ Hr Hr') in E. destruct E as [Er E].
  injection E as E. apply append_cancel_tail in E.
  repeat split; assumption.
Qed.

Lemma prompt_determines_parts_witness :
  forallb (fun p => negb (has_char " " (ascii_lower p))) interior_prefix = true
  /\ forallb (fun r => negb (has_char "," (ascii_lower r))) rooms = true
  /\ make_interior_prompt ascii_lower "Living room" "simple" "Rustic"
     = make_interior_prompt ascii_lower "living ROOM" "Simple" "rustic"
  /\ (ascii_lower "simple" = ascii_lower "Simple"
      /\ ascii_lower "Living room" = ascii_lower "living ROOM"
      /\ ascii_lower "Rustic" = ascii_lower "rustic")
  /\ make_interior_prompt ascii_lower "room" "big living" "modern"
     = make_interior_prompt ascii_lower "living room" "big" "modern".
Proof.
  split; [vm_compute; reflexivity|].
  split; [vm_compute; reflexivity|].
  assert (E : make_interior_prompt ascii_lower "Living room" "simple" "Rustic"
              = make_interior_prompt ascii_lower "living ROOM" "Simple"
                                     "rustic")
    by (vm_compute; reflexivity).
  split; [exact E|].
  split; [|vm_compute; reflexivity].
  apply (prompt_determines_parts ascii_lower "Living room" "simple" "Rustic"
           "living ROOM" "Simple" "rustic");
    try (vm_compute; reflexivity).
Defined.

Lemma all_rows_at (lower : string -> string) (r p s : nat)
      (room prefix style : string) :
  nth_error rooms r = Some room ->
  nth_error interior_prefix p = Some prefix ->
  nth_error interior_styles s = Some style ->
  nth_error (all_rows lower) ((r * 3 + p) * 26 + s)
  = Some [make_interior_prompt lower room prefix style].
Proof.
  intros Er Ep Es.
  assert (P : nth_error (product rooms interior_prefix interior_styles)
                        ((r * 3 + p) * 26 + s)
              = Some (room, prefix, style))
    by exact (nth_error_product rooms interior_prefix interior_styles
                r p s room prefix style Er Ep Es).
  unfold all_rows, prompts, room_tuples.
  rewrite !nth_error_map, P. reflexivity.
Qed.

Lemma distinct_strings_NoDup (l : list string) :
  distinct_rows (map (fun x => [x]) l) = true -> NoDup l.
Proof.
  intros E. apply distinct_rows_NoDup in E.
  apply NoDup_map_inv in E. exact E.
Qed.

Lemma lowered_position (l : list string) (i j : nat) (a b : string) :
  NoDup (map ascii_lower l) ->
  nth_error l i = Some a -> nth_error l j = Some b ->
  ascii_lower a = ascii_lower b -> i = j.
Proof.
  intros ND Ea Eb E. rewrite NoDup_nth_error in ND. apply ND.
  - rewrite length_map. apply nth_error_Some. congruence.
  - rewrite !nth_error_map, Ea, Eb. simpl. now rewrite E.
Qed.

Lemma rooms_lowered_distinct : NoDup (map ascii_lower rooms).
Proof. apply distinct_strings_NoDup. vm_compute. reflexivity. Qed.

Lemma prefixes_lowered_distinct : NoDup (map ascii_lower interior_prefix).
Proof. apply distinct_strings_NoDup. vm_compute. reflexivity. Qed.

Lemma prefixes_without_space (p : string) :
  In p interior_prefix -> has_char " " (ascii_lower p) = false.
Proof.
  assert (E : forallb (fun p => negb (has_char " " (ascii_lower p)))
                      interior_prefix = true) by (vm_compute; reflexivity).
  rewrite forallb_forall in E. intros Hp. apply negb_true_iff. now apply E.
Qed.

Lemma rooms_without_comma (r : string) :
  In r rooms -> has_char "," (ascii_lower r) = false.
Proof.
  assert (E : forallb (fun r => negb (has_char "," (ascii_lower r)))
                      rooms = true) by (vm_compute; reflexivity).
  rewrite forallb_forall in E. intros Hr. apply negb_true_iff. now apply E.
Qed.

Lemma styles_lower_case (s : string) :
  In s interior_styles -> ascii_lower s = s.
Proof.
  assert (E : forallb (fun s => String.eqb (ascii_lower s) s)
                      interior_styles = true) by (vm_compute; reflexivity).
  rewrite forallb_forall in E. intros Hs. apply String.eqb_eq. now apply E.
Qed.

(** X9. Two rows of the full frame hold the same prompt exactly when they
    belong to the same room and the same prefix and their styles are the
    same string: the only repeated rows are those of the styles listed
    twice ("rustic", "coastal"). *)
Theorem repeated_rows_characterised :
  forall (r p s r' p' s' : nat)
         (room prefix style room' prefix' style' : string),
    nth_error rooms r = Some room ->
    nth_error interior_prefix p = Some prefix ->
    nth_error interior_styles s = Some style ->
    nth_error rooms r' = Some room' ->
    nth_error interior_prefix p' = Some prefix' ->
    nth_error interior_styles s' = Some style' ->
    (nth_error (rows (frame (load ascii_lower None))) ((r * 3 + p) * 26 + s)
     = nth_error (rows (frame (load ascii_lower None)))
                 ((r' * 3 + p') * 26 + s')
     <-> r = r' /\ p = p' /\ style = style').
Proof.
  intros r p s r' p' s' room prefix style room' prefix' style'
         Er Ep Es Er' Ep' Es'.
  unfold load. rewrite !load_into_rows.
  rewrite (all_rows_at ascii_lower r p s room prefix style Er Ep Es).
  rewrite (all_rows_at ascii_lower r' p' s' room' prefix' style' Er' Ep' Es').
  split.
  - intros E. injection E as E.
    rewrite !make_interior_prompt_parts in E.
    apply split_at_char in E;
      [| apply prefixes_without_space; eapply nth_error_In; eassumption
       | apply prefixes_without_space; eapply nth_error_In; eassumption].
    destruct E as [Eprefix E].
    apply split_at_char in E;
      [| apply rooms_without_comma; eapply nth_error_In; eassumption
       | apply rooms_without_comma; eapply nth_error_In; eassumption].
    destruct E as [Eroom E].
    injection E as E. apply append_cancel_tail in E.
    repeat apply conj.
    + exact (lowered_position rooms r r' room room'
               rooms_lowered_distinct Er Er' Eroom).
    + exact (lowered_position interior_prefix p p' prefix prefix'
               prefixes_lowered_distinct Ep Ep' Eprefix).
    + rewrite <- (styles_lower_case style)
        by (eapply nth_error_In; eassumption).
      rewrite <- (styles_lower_case style')
        by (eapply nth_error_In; eassumption).
      exact E.
  - intros [E1 [E2 E3]]. subst r' p' style'.
    assert (room = room') by congruence.
    assert (prefix = prefix') by congruence.
    subst. reflexivity.
Qed.

Lemma repeated_rows_characterised_witness :
  nth_error (rows (frame (load ascii_lower None))) ((4 * 3 + 2) * 26 + 7)
  = nth_error (rows (frame (load ascii_lower None))) ((4 * 3 + 2) * 26 + 23)
  /\ nth_error (rows (frame (load ascii_lower None))) ((4 * 3 + 2) * 26 + 7)
     <> nth_error (rows (frame (load ascii_lower None)))
                  ((4 * 3 + 1) * 26 + 7).
Proof.
  split.
  - apply (repeated_rows_characterised 4 2 7 4 2 23
             "Entrance hall" "simple" "rustic"
             "Entrance hall" "simple" "rustic");
      try reflexivity.
    repeat split.
  - intros E.
    apply (repeated_rows_characterised 4 2 7 4 1 7
             "Entrance hall" "simple" "rustic"
             "Entrance hall" "luxurious" "rustic") in E;
      try reflexivity.
    destruct E as [_ [E _]]. discriminate.
Defined.
